(** * pi04: bubble sort, heap sort and Fibonacci search

    A shallow embedding of the three routines of the repository

    - [bubbleSort]      (Лабораторная работа 9_10/Сортировка бусинами.cpp)
    - [heapify], [heapSort] (Лабораторная работа/пирамидальная сортировка.cpp)
    - [fibonacciSearch] (Лабораторная работа/поиск по фибоначчи.cpp)

    A [std::vector<int>] is a [list Z]; [operator[]] outside the vector is
    undefined behaviour in C++ and is an explicit [OutOfBounds] outcome here.
    [size_t] is a 64-bit unsigned integer and [int] a 32-bit signed one; every
    arithmetic operation of the source is followed by the corresponding
    wrap-around.  Signed overflow is undefined behaviour in C++; the theorems
    about [heapSort] are stated for vectors of fewer than 2^30 elements and
    those about [fibonacciSearch] for vectors of at most F(46) = 1836311903
    elements, where no [int] operation of the source leaves its range; at
    2^30 and at F(46) + 1 elements the first overflow occurs.  Loops and the recursion of [heapify] are driven by a fuel
    argument; the entry points supply the fuel themselves and the theorems
    show that it is never exhausted. *)

From Stdlib Require Import ZArith Lia.
From stdpp Require Import base list sorting.

Local Open Scope Z_scope.

(** ** Machine integers *)

Definition size_max : Z := 2 ^ 64 - 1.

(** Arithmetic on [size_t] is modulo 2^64. *)
Definition wrap_size (z : Z) : Z := z mod 2 ^ 64.

Definition int_max : Z := 2 ^ 31 - 1.

(** Arithmetic on [int], reduced to the range [-2^31, 2^31). *)
Definition wrap_int (z : Z) : Z := (z + 2 ^ 31) mod 2 ^ 32 - 2 ^ 31.

(** ** Outcomes of a run *)

Inductive outcome (A : Type) : Type :=
| Ret (a : A)            (* the routine returns normally *)
| OutOfBounds (i : Z)    (* operator[] used with index i outside the vector *)
| OutOfFuel.             (* the embedding ran out of fuel *)

Arguments Ret {A} a.
Arguments OutOfBounds {A} i.
Arguments OutOfFuel {A}.

Definition bind {A B : Type} (m : outcome A) (f : A -> outcome B) : outcome B :=
  match m with
  | Ret a => f a
  | OutOfBounds i => OutOfBounds i
  | OutOfFuel => OutOfFuel
  end.

Notation "'do' x <- m ; k" := (bind m (fun x => k))
  (at level 10, x name, m at level 100, k at level 200,
   format "'[v' 'do'  x  <-  m ; '/' k ']'").
Notation "'do' ' p <- m ; k" := (bind m (fun p => k))
  (at level 10, p pattern, m at level 100, k at level 200,
   format "'[v' 'do'  ' p  <-  m ; '/' k ']'").

(** ** std::vector<int> *)

Abbreviation vec := (list Z).

(** [v.size()] *)
Definition size (v : vec) : Z := Z.of_nat (length v).

(** [v[i]] read *)
Definition at_ (v : vec) (i : Z) : outcome Z :=
  if i <? 0 then OutOfBounds i
  else match v !! Z.to_nat i with
       | Some x => Ret x
       | None => OutOfBounds i
       end.

(** [std::swap(v[i], v[j])] *)
Definition swap (v : vec) (i j : Z) : outcome vec :=
  do a <- at_ v i ;
  do b <- at_ v j ;
  Ret (<[Z.to_nat j := a]> (<[Z.to_nat i := b]> v)).

(** ** Specification vocabulary *)

(** Non-decreasing at every adjacent pair. *)
Definition nondecreasing (v : vec) : Prop :=
  forall (i : nat) a b, v !! i = Some a -> v !! S i = Some b -> a <= b.

(** Every position from [m] on holds a value that is at least every value
    to its left: the suffix from [m] is in its final, sorted place. *)
Definition ordered_above (v : vec) (m : nat) : Prop :=
  forall (j k : nat) a b,
    (j <= k)%nat -> (m <= k)%nat -> v !! j = Some a -> v !! k = Some b -> a <= b.

(** [v'] rearranges the first [m] positions of [v] and leaves the rest. *)
Definition perm_below (m : nat) (v v' : vec) : Prop :=
  take m v ≡ₚ take m v' /\ drop m v = drop m v'.

(** ** Bubble sort *)

Module Bubble.

(** The inner [for (size_t j = 0; j < beads.size() - i - 1; ++j)] loop, from
    the test of its condition on.  Returns the vector and [swapped]. *)
Fixpoint inner_loop (fuel : nat) (beads : vec) (i j : Z) (swapped : bool)
  : outcome (vec * bool) :=
  match fuel with
  | O => OutOfFuel
  | S fuel' =>
      if j <? wrap_size (wrap_size (size beads - i) - 1) then
        do a <- at_ beads j ;
        do b <- at_ beads (wrap_size (j + 1)) ;
        if a >? b then
          do beads' <- swap beads j (wrap_size (j + 1)) ;
          inner_loop fuel' beads' i (wrap_size (j + 1)) true
        else
          inner_loop fuel' beads i (wrap_size (j + 1)) swapped
      else Ret (beads, swapped)
  end.

(** The outer [for (size_t i = 0; i < beads.size() - 1; ++i)] loop, from the
    test of its condition on. *)
Fixpoint outer_loop (fuel : nat) (beads : vec) (i : Z) : outcome vec :=
  match fuel with
  | O => OutOfFuel
  | S fuel' =>
      if i <? wrap_size (size beads - 1) then
        do '(beads', swapped) <- inner_loop (S (length beads)) beads i 0 false ;
        if negb swapped then Ret beads'
        else outer_loop fuel' beads' (wrap_size (i + 1))
      else Ret beads
  end.

Definition bubbleSort (beads : vec) : outcome vec :=
  outer_loop (S (length beads)) beads 0.

End Bubble.

(** ** Heap sort *)

Module Heap.

(** [heapify(arr, n, i)]; the fuel bounds the depth of the recursion. *)
Fixpoint heapify (fuel : nat) (arr : vec) (n i : Z) : outcome vec :=
  match fuel with
  | O => OutOfFuel
  | S fuel' =>
      let largest := i in
      let left := wrap_int (wrap_int (2 * i) + 1) in
      let right := wrap_int (wrap_int (2 * i) + 2) in
      do largest <-
        (if left <? n then
           do x <- at_ arr left ;
           do y <- at_ arr largest ;
           Ret (if x >? y then left else largest)
         else Ret largest) ;
      do largest <-
        (if right <? n then
           do x <- at_ arr right ;
           do y <- at_ arr largest ;
           Ret (if x >? y then right else largest)
         else Ret largest) ;
      if negb (largest =? i) then
        do arr' <- swap arr i largest ;
        heapify fuel' arr' n largest
      else Ret arr
  end.

(** One of the two guarded comparisons of [heapify], named for the proofs:
    [if (cand < n && arr[cand] > arr[largest]) largest = cand;] *)
Definition pick (arr : vec) (n cand largest : Z) : outcome Z :=
  if cand <? n then
    do x <- at_ arr cand ;
    do y <- at_ arr largest ;
    Ret (if x >? y then cand else largest)
  else Ret largest.

(** [for (int i = n / 2 - 1; i >= 0; i--) heapify(arr, n, i);] from the test
    of its condition on. *)
Fixpoint build_loop (fuel : nat) (arr : vec) (n i : Z) : outcome vec :=
  match fuel with
  | O => OutOfFuel
  | S fuel' =>
      if i >=? 0 then
        do arr' <- heapify (S (length arr)) arr n i ;
        build_loop fuel' arr' n (wrap_int (i - 1))
      else Ret arr
  end.

(** [for (int i = n - 1; i > 0; i--) { swap(arr[0], arr[i]); heapify(arr, i, 0); }]
    from the test of its condition on. *)
Fixpoint extract_loop (fuel : nat) (arr : vec) (i : Z) : outcome vec :=
  match fuel with
  | O => OutOfFuel
  | S fuel' =>
      if i >? 0 then
        do arr1 <- swap arr 0 i ;
        do arr2 <- heapify (S (length arr)) arr1 i 0 ;
        extract_loop fuel' arr2 (wrap_int (i - 1))
      else Ret arr
  end.

Definition heapSort (arr : vec) : outcome vec :=
  let n := wrap_int (size arr) in
  do arr1 <- build_loop (S (length arr)) arr n (wrap_int (Z.quot n 2 - 1)) ;
  extract_loop (S (length arr)) arr1 (wrap_int (n - 1)).

(** Max-heap order at node [j] of the active prefix of length [n]: no child
    inside the prefix holds a larger value. *)
Definition heap_at (arr : vec) (n j : nat) : Prop :=
  forall (c : nat) a b,
    (c = 2 * j + 1 \/ c = 2 * j + 2)%nat -> (c < n)%nat ->
    arr !! j = Some a -> arr !! c = Some b -> b <= a.

(** The heap order holds at every node from [lo] on, except possibly at [i];
    and the parent of [i], when it is at [lo] or later, already dominates the
    children of [i]. *)
Definition heap_except (arr : vec) (lo n i : nat) : Prop :=
  (forall j, (lo <= j)%nat -> j <> i -> heap_at arr n j) /\
  (forall (p c : nat) a b,
      (lo <= p)%nat -> (i = 2 * p + 1 \/ i = 2 * p + 2)%nat ->
      (c = 2 * i + 1 \/ c = 2 * i + 2)%nat -> (c < n)%nat ->
      arr !! p = Some a -> arr !! c = Some b -> b <= a).

End Heap.

(** ** Fibonacci search *)

Module Fib.

(** Runs that also record, in order, every index handed to [operator[]]. *)
Definition traced (A : Type) : Type := (list Z * outcome A)%type.

Definition tret {A : Type} (a : A) : traced A := ([], Ret a).

Definition tbind {A B : Type} (m : traced A) (f : A -> traced B) : traced B :=
  match m with
  | (tr, Ret a) => let '(tr', r) := f a in (tr ++ tr', r)
  | (tr, OutOfBounds i) => (tr, OutOfBounds i)
  | (tr, OutOfFuel) => (tr, OutOfFuel)
  end.

Definition tlift {A : Type} (m : outcome A) : traced A := ([], m).

(** [arr[i]] read, recorded. *)
Definition tread (arr : vec) (i : Z) : traced Z := ([i], at_ arr i).

Notation "'tdo' x <- m ; k" := (tbind m (fun x => k))
  (at level 10, x name, m at level 100, k at level 200,
   format "'[v' 'tdo'  x  <-  m ; '/' k ']'").

(** The three tracked Fibonacci numbers. *)
Record triple : Type := Triple { fibMMm2 : Z; fibMMm1 : Z; fibM : Z }.

(** Body of the generation loop. *)
Definition gen_step (t : triple) : triple :=
  let fibMMm2' := fibMMm1 t in
  let fibMMm1' := fibM t in
  let fibM' := wrap_int (fibMMm2' + fibMMm1') in
  Triple fibMMm2' fibMMm1' fibM'.

(** [while (fibM < n) { ... }] *)
Fixpoint generate (fuel : nat) (n : Z) (t : triple) : outcome triple :=
  match fuel with
  | O => OutOfFuel
  | S fuel' => if fibM t <? n then generate fuel' n (gen_step t) else Ret t
  end.

(** The update of the triple in the [arr[i] < target] branch. *)
Definition less_step (t : triple) : triple :=
  let fibM' := fibMMm1 t in
  let fibMMm1' := fibMMm2 t in
  let fibMMm2' := wrap_int (fibM' - fibMMm1') in
  Triple fibMMm2' fibMMm1' fibM'.

(** The update of the triple in the [arr[i] > target] branch. *)
Definition greater_step (t : triple) : triple :=
  let fibM' := fibMMm2 t in
  let fibMMm1' := wrap_int (fibMMm1 t - fibMMm2 t) in
  let fibMMm2' := wrap_int (fibM' - fibMMm1') in
  Triple fibMMm2' fibMMm1' fibM'.

(** [while (fibM > 1) { ... }] followed by the residual check. *)
Fixpoint search_loop (fuel : nat) (arr : vec) (n target : Z)
    (t : triple) (offset : Z) : traced Z :=
  match fuel with
  | O => tlift OutOfFuel
  | S fuel' =>
      if fibM t >? 1 then
        let i := Z.min (wrap_int (offset + fibMMm2 t)) (wrap_int (n - 1)) in
        tdo x <- tread arr i ;
        if x <? target then
          search_loop fuel' arr n target (less_step t) i
        else
          tdo y <- tread arr i ;
          if y >? target then
            search_loop fuel' arr n target (greater_step t) offset
          else tret i
      else
        if negb (fibMMm1 t =? 0) && (wrap_int (offset + 1) <? n) then
          tdo x <- tread arr (wrap_int (offset + 1)) ;
          if x =? target then tret (wrap_int (offset + 1)) else tret (-1)
        else tret (-1)
  end.

(** The triple as initialised by the source: 0, 1 and their sum. *)
Definition init_triple : triple :=
  let fibMMm2 := 0 in
  let fibMMm1 := 1 in
  Triple fibMMm2 fibMMm1 (wrap_int (fibMMm2 + fibMMm1)).

(** The generation loop of [fibonacciSearch] on a vector of the given size. *)
Definition generated (fuel : nat) (arr : vec) : outcome triple :=
  generate fuel (wrap_int (size arr)) init_triple.

Definition fibonacciSearch_run (fuel : nat) (arr : vec) (target : Z) : traced Z :=
  let n := wrap_int (size arr) in
  tdo t <- tlift (generate fuel n init_triple) ;
  let offset := -1 in
  search_loop fuel arr n target t offset.

(** The value returned by [fibonacciSearch(arr, target)]. *)
Definition fibonacciSearch (arr : vec) (target : Z) : outcome Z :=
  snd (fibonacciSearch_run (S (length arr)) arr target).

(** The indices it reads, in order. *)
Definition probes (arr : vec) (target : Z) : list Z :=
  fst (fibonacciSearch_run (S (length arr)) arr target).

(** The Fibonacci numbers F(0) = 0, F(1) = 1, F(k+2) = F(k) + F(k+1). *)
Fixpoint fib_pair (k : nat) : Z * Z :=
  match k with
  | O => (0, 1)
  | S k' => let '(a, b) := fib_pair k' in (b, a + b)
  end.

Definition fib (k : nat) : Z := fst (fib_pair k).

(** The triple (F(k), F(k+1), F(k+2)). *)
Definition triple_at (k : nat) : triple :=
  Triple (fib k) (fib (S k)) (fib (S (S k))).

(** The triple (1, 0, 1) reached from (1, 1, 2) in the [arr[i] > target]
    branch: F(-1), F(0), F(1). *)
Definition triple_low : triple := Triple 1 0 1.

(** The triples the search loop goes through: (F(k), F(k+1), F(k+2)), and
    [triple_low], which only occurs where the loop stops ([k = 0]). *)
Definition fib_state (k : nat) (t : triple) : Prop :=
  t = triple_at k \/ (k = 0%nat /\ t = triple_low).

(** Some occurrence of [target] lies in the window of [fibM] positions
    right after [offset]. *)
Definition in_window (arr : vec) (target : Z) (t : triple) (offset : Z) : Prop :=
  exists p : nat,
    arr !! p = Some target /\ offset < Z.of_nat p <= offset + fibM t.

(** [x] is the least value among the Fibonacci numbers F(j), [j >= lo],
    that are at least [n]. *)
Definition least_fib_from (lo : nat) (n x : Z) : Prop :=
  (exists k, (lo <= k)%nat /\ x = fib k) /\ n <= x /\
  forall j, (lo <= j)%nat -> n <= fib j -> x <= fib j.

End Fib.

(** ** Vectors at the edge of the [int] range *)

(** 2^30 = 1073741824 elements: zeros followed by a one. *)
Abbreviation heap_overflow_input :=
  (replicate (Z.to_nat 1073741823) 0 ++ [1]).

(** F(46) + 1 = 1836311904 elements: zeros followed by a one. *)
Abbreviation fib_overflow_input :=
  (replicate (Z.to_nat 1836311903) 0 ++ [1]).

Import Bubble Heap Fib.

(** * Concrete runs *)

Example bubbleSort_main : bubbleSort [5; 2; 9; 1; 5; 6] = Ret [1; 2; 5; 5; 6; 9].
Proof. vm_compute. reflexivity. Qed.

Example bubbleSort_single : bubbleSort [7] = Ret [7].
Proof. vm_compute. reflexivity. Qed.

Example heapSort_main : heapSort [12; 3; 5; 7; 19; 1] = Ret [1; 3; 5; 7; 12; 19].
Proof. vm_compute. reflexivity. Qed.

Example heapSort_nil : heapSort [] = Ret [].
Proof. vm_compute. reflexivity. Qed.

Example fibonacciSearch_main :
  fibonacciSearch [10; 22; 35; 40; 45; 50; 80; 82; 85; 90; 100] 85 = Ret 8.
Proof. vm_compute. reflexivity. Qed.

Example fibonacciSearch_main_99 :
  fibonacciSearch [10; 22; 35; 40; 45; 50; 80; 82; 85; 90; 100] 99 = Ret (-1).
Proof. vm_compute. reflexivity. Qed.

Example fibonacciSearch_single : fibonacciSearch [4] 4 = Ret 0.
Proof. vm_compute. reflexivity. Qed.

(** * Machine arithmetic inside its range *)

Lemma wrap_size_small z : 0 <= z <= size_max -> wrap_size z = z.
Proof. unfold wrap_size, size_max. intros H. apply Z.mod_small. lia. Qed.

Lemma wrap_int_small z : - 2 ^ 31 <= z <= int_max -> wrap_int z = z.
Proof.
  unfold wrap_int, int_max. intros H.
  rewrite Z.mod_small by lia. lia.
Qed.

(** Linear arithmetic with the sizes and limits unfolded. *)
Ltac machine_lia := unfold size, size_max, int_max in *; lia.

(** * Vector reads and swaps *)

Lemma at_lookup (v : vec) (i : nat) x :
  v !! i = Some x -> at_ v (Z.of_nat i) = Ret x.
Proof.
  intros H. unfold at_.
  destruct (Z.ltb_spec (Z.of_nat i) 0) as [Hlt | _]; [lia |].
  rewrite Nat2Z.id, H. reflexivity.
Qed.

Lemma swap_lookup (v : vec) (i j : nat) a b :
  v !! i = Some a -> v !! j = Some b ->
  swap v (Z.of_nat i) (Z.of_nat j) = Ret (<[j := a]> (<[i := b]> v)).
Proof.
  intros Hi Hj. unfold swap.
  rewrite (at_lookup _ _ _ Hi), (at_lookup _ _ _ Hj). simpl.
  rewrite !Nat2Z.id. reflexivity.
Qed.

(** Exchanging two positions does not change the multiset of values. *)
Lemma exchange_head_Permutation (v : vec) (j : nat) a b :
  v !! j = Some b -> a :: v ≡ₚ b :: <[j := a]> v.
Proof.
  revert j. induction v as [| c v IH]; intros [| j] H; simplify_eq/=.
  - apply perm_swap.
  - rewrite (perm_swap c a v), (perm_swap c b _).
    apply perm_skip, IH, H.
Qed.

Lemma exchange_Permutation (v : vec) (i j : nat) a b :
  v !! i = Some a -> v !! j = Some b -> <[j := a]> (<[i := b]> v) ≡ₚ v.
Proof.
  revert i j. induction v as [| c v IH]; intros [| i] [| j] Hi Hj; simplify_eq/=.
  - reflexivity.
  - symmetry. apply exchange_head_Permutation, Hj.
  - symmetry. apply exchange_head_Permutation, Hi.
  - apply perm_skip. eapply IH; eassumption.
Qed.

(** * Rearrangements of a prefix *)

Lemma perm_below_refl m (v : vec) : perm_below m v v.
Proof. split; reflexivity. Qed.

Lemma perm_below_trans m (v1 v2 v3 : vec) :
  perm_below m v1 v2 -> perm_below m v2 v3 -> perm_below m v1 v3.
Proof. intros [P1 D1] [P2 D2]. split; [by rewrite P1 | congruence]. Qed.

Lemma perm_below_Permutation m (v v' : vec) : perm_below m v v' -> v ≡ₚ v'.
Proof.
  intros [P D]. rewrite <- (take_drop m v), <- (take_drop m v'), P, D. reflexivity.
Qed.

Lemma perm_below_length m (v v' : vec) : perm_below m v v' -> length v' = length v.
Proof. intros H. symmetry. apply Permutation_length, (perm_below_Permutation m), H. Qed.

Lemma perm_below_exchange m (v : vec) (i j : nat) a b :
  (i < m)%nat -> (j < m)%nat -> v !! i = Some a -> v !! j = Some b ->
  perm_below m v (<[j := a]> (<[i := b]> v)).
Proof.
  intros Hi Hj Ha Hb. split.
  - rewrite !take_insert_lt by done. symmetry.
    apply exchange_Permutation; rewrite lookup_take_lt; done.
  - rewrite !drop_insert_lt by done. reflexivity.
Qed.

(** Values of the rearranged prefix come from the old prefix; positions
    outside the prefix are untouched. *)
Lemma perm_below_lookup_lt m (v v' : vec) (j : nat) a :
  perm_below m v v' -> (j < m)%nat -> v' !! j = Some a ->
  exists j', (j' < m)%nat /\ v !! j' = Some a.
Proof.
  intros [P _] Hj Ha.
  assert (a ∈ take m v) as Hin.
  { rewrite P. apply list_elem_of_lookup. exists j. by rewrite lookup_take_lt. }
  apply list_elem_of_lookup in Hin as [j' Hj'].
  apply lookup_take_Some in Hj' as [? ?]. eauto.
Qed.

Lemma perm_below_lookup_ge m (v v' : vec) (k : nat) :
  perm_below m v v' -> (m <= k)%nat -> v' !! k = v !! k.
Proof.
  intros [_ D] Hk.
  replace k with (m + (k - m))%nat by lia.
  rewrite <- !lookup_drop, D. reflexivity.
Qed.

(** * Sortedness *)

Lemma ordered_above_perm_below m (v v' : vec) :
  perm_below m v v' -> ordered_above v m -> ordered_above v' m.
Proof.
  intros HP HO j k a b Hjk Hmk Ha Hb.
  rewrite (perm_below_lookup_ge _ _ _ _ HP Hmk) in Hb.
  destruct (decide (j < m)%nat) as [Hlt | Hge].
  - destruct (perm_below_lookup_lt _ _ _ _ _ HP Hlt Ha) as (j' & Hj' & Ha').
    apply (HO j' k); [lia | done | done | done].
  - rewrite (perm_below_lookup_ge _ _ _ _ HP) in Ha by lia.
    by apply (HO j k).
Qed.

(** The last position of the prefix becomes final once it dominates it. *)
Lemma ordered_above_extend m (v : vec) :
  ordered_above v (S m) ->
  (forall (k : nat) a b, (k < m)%nat -> v !! k = Some a -> v !! m = Some b -> a <= b) ->
  ordered_above v m.
Proof.
  intros HO Hmax j k a b Hjk Hmk Ha Hb.
  destruct (decide (k = m)) as [-> | Hne].
  - destruct (decide (j = m)) as [-> | Hj]; [simplify_eq; lia |].
    apply (Hmax j); [lia | done | done].
  - apply (HO j k); [done | lia | done | done].
Qed.

Lemma ordered_above_1 (v : vec) : ordered_above v 1 -> ordered_above v 0.
Proof.
  intros HO j k a b Hjk _ Ha Hb.
  destruct k as [| k]; [| by apply (HO j (S k)); [done | lia | |]].
  assert (j = 0)%nat as -> by lia. simplify_eq. lia.
Qed.

Lemma ordered_above_nondecreasing (v : vec) : ordered_above v 0 -> nondecreasing v.
Proof. intros HO i a b Ha Hb. apply (HO i (S i)); [lia | lia | done | done]. Qed.

(** Adjacent order on the first [m] pairs together with a final suffix from
    [S m] on gives a fully ordered vector. *)
Lemma adjacent_ordered_above m (v : vec) :
  (forall (k : nat) a b, (k < m)%nat -> v !! k = Some a -> v !! S k = Some b -> a <= b) ->
  ordered_above v (S m) -> ordered_above v 0.
Proof.
  intros Hadj HO j k a b Hjk _ Ha Hb.
  destruct (decide (S m <= k)%nat) as [Hk | Hk]; [by apply (HO j k) |].
  revert b Hb. induction k as [| k IH]; intros b Hb.
  - assert (j = 0)%nat as -> by lia. simplify_eq. lia.
  - destruct (decide (j = S k)) as [-> | Hne]; [simplify_eq; lia |].
    destruct (v !! k) as [c |] eqn:Hc.
    + transitivity c; [apply IH; [lia | lia | done] | apply (Hadj k); [lia | done | done]].
    + apply lookup_ge_None_1 in Hc. apply lookup_lt_Some in Hb. lia.
Qed.

Lemma nondecreasing_Sorted (v : vec) : nondecreasing v -> Sorted Z.le v.
Proof.
  induction v as [| a v IH]; intros H; [constructor |].
  constructor.
  - apply IH. intros i x y Hx Hy. apply (H (S i) x y); done.
  - destruct v as [| b v]; constructor. apply (H 0%nat a b); done.
Qed.

Lemma Sorted_nondecreasing (v : vec) : Sorted Z.le v -> nondecreasing v.
Proof.
  induction 1 as [| a v HS IH HR]; intros i x y Hx Hy; [done |].
  destruct i as [| i]; simplify_eq/=.
  - destruct HR as [| b v Hab]; simplify_eq/=. done.
  - by apply (IH i).
Qed.

(** Two non-decreasing arrangements of the same values are equal. *)
Lemma nondecreasing_unique (v v' : vec) :
  nondecreasing v -> nondecreasing v' -> v ≡ₚ v' -> v = v'.
Proof.
  intros H H' HP.
  apply (Sorted_unique Z.le); [by apply nondecreasing_Sorted .. | done].
Qed.

(** * Bubble sort on a non-empty vector *)

Section BubbleCorrect.

Implicit Types (beads : vec) (i j d : nat).

(** The pass bound [beads.size() - i - 1] when it does not wrap. *)
Lemma pass_bound beads i :
  size beads <= size_max -> (i < length beads)%nat ->
  wrap_size (wrap_size (size beads - Z.of_nat i) - 1)
  = Z.of_nat (length beads - 1 - i).
Proof.
  intros Hmax Hi.
  rewrite (wrap_size_small (size beads - _)) by machine_lia.
  rewrite wrap_size_small by machine_lia. unfold size. lia.
Qed.

Lemma succ_index beads j :
  size beads <= size_max -> (j < length beads)%nat ->
  wrap_size (Z.of_nat j + 1) = Z.of_nat (S j).
Proof. intros Hmax Hj. rewrite wrap_size_small by machine_lia. lia. Qed.

(** One pass: [d] comparisons remain, position [j] holds the largest value
    seen so far. *)
Lemma inner_loop_spec d : forall fuel beads i j swapped,
  size beads <= size_max ->
  (i + j + d + 1 = length beads)%nat ->
  (d < fuel)%nat ->
  (forall (k : nat) a b, (k < j)%nat ->
     beads !! k = Some a -> beads !! j = Some b -> a <= b) ->
  exists beads' swapped',
    inner_loop fuel beads (Z.of_nat i) (Z.of_nat j) swapped = Ret (beads', swapped') /\
    perm_below (S (j + d)) beads beads' /\
    (forall (k : nat) a b, (k < j + d)%nat ->
       beads' !! k = Some a -> beads' !! (j + d)%nat = Some b -> a <= b) /\
    (swapped' = false ->
       swapped = false /\ beads' = beads /\
       forall (k : nat) a b, (j <= k < j + d)%nat ->
         beads !! k = Some a -> beads !! S k = Some b -> a <= b).
Proof.
  induction d as [| d IH]; intros fuel beads i j swapped Hmax Hlen Hfuel Hbig;
    (destruct fuel as [| fuel]; [lia |]); simpl.
  - rewrite pass_bound by (done || lia).
    destruct (Z.ltb_spec (Z.of_nat j) (Z.of_nat (length beads - 1 - i)));
      [lia |].
    exists beads, swapped. rewrite Nat.add_0_r. split_and!.
    + done.
    + apply perm_below_refl.
    + done.
    + intros ->. split_and!; [done | done | intros; lia].
  - rewrite pass_bound by (done || lia).
    destruct (Z.ltb_spec (Z.of_nat j) (Z.of_nat (length beads - 1 - i)));
      [| lia].
    destruct (lookup_lt_is_Some_2 beads j) as [a Ha]; [lia |].
    destruct (lookup_lt_is_Some_2 beads (S j)) as [b Hb]; [lia |].
    rewrite (succ_index beads) by (done || lia).
    rewrite (at_lookup _ _ _ Ha), (at_lookup _ _ _ Hb). simpl.
    destruct (Z.gtb_spec a b) as [Hgt | Hle].
    + rewrite (swap_lookup _ _ _ _ _ Ha Hb). simpl.
      set (beads1 := <[S j := a]> (<[j := b]> beads)).
      assert (length beads1 = length beads) as Hlen1
        by (unfold beads1; by rewrite !length_insert).
      assert (perm_below (S (j + S d)) beads beads1) as HP1
        by (apply perm_below_exchange; (done || lia)).
      destruct (IH fuel beads1 i (S j) true) as (beads' & sw & Hrun & HP & Hmaxd & Hsw).
      * unfold size in *. lia.
      * lia.
      * lia.
      * intros k x y Hk Hx Hy. unfold beads1 in Hx, Hy.
        rewrite list_lookup_insert_eq in Hy by (rewrite length_insert; lia).
        assert (y = a) as -> by congruence.
        rewrite list_lookup_insert_ne in Hx by lia.
        destruct (decide (k = j)) as [-> | Hkj].
        -- rewrite list_lookup_insert_eq in Hx by lia.
           assert (x = b) as -> by congruence. lia.
        -- rewrite list_lookup_insert_ne in Hx by done.
           apply (Hbig k); [lia | done | done].
      * exists beads', sw.
        replace (S j + d)%nat with (j + S d)%nat in * by lia.
        split_and!; [done | | done |].
        -- eapply perm_below_trans; eassumption.
        -- intros Hf. destruct (Hsw Hf) as [? _]. discriminate.
    + destruct (IH fuel beads i (S j) swapped) as (beads' & sw & Hrun & HP & Hmaxd & Hsw).
      * done.
      * lia.
      * lia.
      * intros k x y Hk Hx Hy.
        assert (y = b) as -> by congruence.
        destruct (decide (k = j)) as [-> | Hkj];
          [assert (x = a) as -> by congruence; lia |].
        pose proof (Hbig k x a ltac:(lia) Hx Ha). lia.
      * exists beads', sw.
        replace (S j + d)%nat with (j + S d)%nat in * by lia.
        split_and!; [done | done | done |].
        intros Hf. destruct (Hsw Hf) as (? & ? & Hadj). split_and!; [done | done |].
        intros k x y Hk Hx Hy.
        destruct (decide (k = j)) as [-> | Hkj];
          [assert (x = a) as -> by congruence;
           assert (y = b) as -> by congruence; lia |].
        apply (Hadj k); [lia | done | done].
Qed.

(** The passes: the last [i] positions are final when pass [i] starts. *)
Lemma outer_loop_spec d : forall fuel beads i,
  size beads <= size_max ->
  (i + d + 1 = length beads)%nat ->
  (d < fuel)%nat ->
  ordered_above beads (length beads - i) ->
  exists beads',
    outer_loop fuel beads (Z.of_nat i) = Ret beads' /\
    beads ≡ₚ beads' /\ ordered_above beads' 0.
Proof.
  induction d as [| d IH]; intros fuel beads i Hmax Hlen Hfuel HO;
    (destruct fuel as [| fuel]; [lia |]); cbn [outer_loop].
  - replace (wrap_size (size beads - 1)) with (Z.of_nat i)
      by (rewrite wrap_size_small; machine_lia).
    rewrite Z.ltb_irrefl. exists beads. split_and!; [done | done |].
    apply ordered_above_1. by replace 1%nat with (length beads - i)%nat by lia.
  - replace (wrap_size (size beads - 1)) with (Z.of_nat (i + S d))
      by (rewrite wrap_size_small; machine_lia).
    destruct (Z.ltb_spec (Z.of_nat i) (Z.of_nat (i + S d))); [| lia].
    destruct (inner_loop_spec (S d) (S (length beads)) beads i 0 false)
      as (beads1 & sw & Hrun & HP & Hmaxd & Hsw); [done | lia | lia | intros; lia |].
    change (Z.of_nat 0) with 0 in Hrun. rewrite Hrun. cbn [bind].
    replace (length beads - i)%nat with (S (S d)) in HO by lia.
    change (0 + S d)%nat with (S d) in *.
    destruct sw; cbn [negb].
    + pose proof (perm_below_length _ _ _ HP) as Hlen1.
      rewrite (succ_index beads) by (done || lia).
      destruct (IH fuel beads1 (S i)) as (beads' & Hrun' & HP' & HO').
      * unfold size in *. lia.
      * lia.
      * lia.
      * replace (length beads1 - S i)%nat with (S d) by lia.
        apply ordered_above_extend; [| done].
        eapply ordered_above_perm_below; eassumption.
      * exists beads'. split_and!; [done | | done].
        etrans; [eapply perm_below_Permutation, HP | done].
    + destruct (Hsw eq_refl) as (_ & -> & Hadj).
      exists beads. split_and!; [done | done |].
      apply (adjacent_ordered_above (S d)); [| done].
      intros k a b Hk. apply Hadj. lia.
Qed.

End BubbleCorrect.

(** [bubbleSort] returns on every non-empty vector with a fully ordered
    rearrangement of the input. *)
Lemma bubbleSort_spec (beads : vec) :
  beads <> [] -> size beads <= size_max ->
  exists beads', bubbleSort beads = Ret beads' /\ beads ≡ₚ beads' /\ ordered_above beads' 0.
Proof.
  intros Hne Hmax. unfold bubbleSort.
  assert (0 < length beads)%nat by (destruct beads; [done | simpl; lia]).
  apply (outer_loop_spec (length beads - 1) (S (length beads)) beads 0);
    [done | lia | lia |].
  intros j k a b _ Hk _ Hb. apply lookup_lt_Some in Hb. lia.
Qed.

(** X1.  On every non-empty vector [bubbleSort] returns, and the vector it leaves
    is non-decreasing at every adjacent pair and a rearrangement of the input
    of the same length. *)
Theorem bubbleSort_sorts_nonempty (beads : vec) :
  beads <> [] -> size beads <= size_max ->
  exists beads',
    bubbleSort beads = Ret beads' /\
    nondecreasing beads' /\ beads' ≡ₚ beads /\ length beads' = length beads.
Proof.
  intros Hne Hmax. unfold bubbleSort.
  assert (0 < length beads)%nat by (destruct beads; [done | simpl; lia]).
  destruct (outer_loop_spec (length beads - 1) (S (length beads)) beads 0)
    as (beads' & Hrun & HP & HO); [done | lia | lia | |].
  { intros j k a b _ Hk _ Hb. apply lookup_lt_Some in Hb. lia. }
  exists beads'. split_and!; [done | | done |].
  - by apply ordered_above_nondecreasing.
  - symmetry. by apply Permutation_length.
Qed.

Lemma bubbleSort_sorts_nonempty_witness :
  exists beads',
    bubbleSort [3; 1; 2] = Ret beads' /\
    nondecreasing beads' /\ beads' ≡ₚ [3; 1; 2] /\ length beads' = length [3; 1; 2].
Proof. apply bubbleSort_sorts_nonempty; [done | vm_compute; discriminate]. Defined.

(** * Heap sort *)

Section HeapCorrect.

Implicit Types (arr : vec) (lo n i j c l : nat).

Lemma exchange_lookup arr i j a b k :
  arr !! i = Some a -> arr !! j = Some b ->
  <[j := a]> (<[i := b]> arr) !! k
  = if decide (k = j) then Some a
    else if decide (k = i) then Some b else arr !! k.
Proof.
  intros Ha Hb.
  apply lookup_lt_Some in Ha as Hi. apply lookup_lt_Some in Hb as Hj.
  destruct (decide (k = j)) as [-> | Hkj].
  - rewrite list_lookup_insert_eq by (by rewrite length_insert). done.
  - rewrite list_lookup_insert_ne by done.
    destruct (decide (k = i)) as [-> | Hki].
    + by rewrite list_lookup_insert_eq.
    + by rewrite list_lookup_insert_ne.
Qed.

(** The child indices [2 * i + 1] and [2 * i + 2] do not overflow. *)
Lemma child_index i (r : Z) :
  Z.of_nat i + 1 < 2 ^ 30 -> 1 <= r <= 2 ->
  wrap_int (wrap_int (2 * Z.of_nat i) + r) = 2 * Z.of_nat i + r.
Proof.
  intros Hi Hr.
  rewrite (wrap_int_small (2 * _)) by machine_lia.
  rewrite wrap_int_small by machine_lia. done.
Qed.

Lemma heapify_unfold fuel arr (n i : Z) :
  heapify (S fuel) arr n i =
  do l1 <- pick arr n (wrap_int (wrap_int (2 * i) + 1)) i ;
  do l2 <- pick arr n (wrap_int (wrap_int (2 * i) + 2)) l1 ;
  if negb (l2 =? i) then
    do arr' <- swap arr i l2 ;
    heapify fuel arr' n l2
  else Ret arr.
Proof. reflexivity. Qed.

Lemma pick_spec arr n c l :
  (n <= length arr)%nat -> (l < n)%nat ->
  exists l',
    pick arr (Z.of_nat n) (Z.of_nat c) (Z.of_nat l) = Ret (Z.of_nat l') /\
    (l' = l \/ l' = c) /\ (l' < n)%nat /\
    (forall a b, arr !! l' = Some a -> arr !! l = Some b -> b <= a) /\
    ((c < n)%nat -> forall a b, arr !! l' = Some a -> arr !! c = Some b -> b <= a) /\
    (l' <> l -> forall a b, arr !! l' = Some a -> arr !! l = Some b -> b < a).
Proof.
  intros Hn Hl. unfold pick.
  destruct (Z.ltb_spec (Z.of_nat c) (Z.of_nat n)) as [Hc | Hc].
  - destruct (lookup_lt_is_Some_2 arr c) as [x Hx]; [lia |].
    destruct (lookup_lt_is_Some_2 arr l) as [y Hy]; [lia |].
    rewrite (at_lookup _ _ _ Hx), (at_lookup _ _ _ Hy). cbn [bind].
    destruct (Z.gtb_spec x y) as [Hgt | Hle].
    + exists c. split_and!; [done | by right | lia | ..]; intros; simplify_eq; lia.
    + exists l. split_and!; [done | by left | lia | ..]; intros; simplify_eq; lia.
  - exists l. split_and!; [done | by left | lia | ..]; intros; simplify_eq; lia.
Qed.

(** Sift-down restores the heap order from [lo] on, rearranging only the
    active prefix. *)
Lemma heapify_spec fuel : forall arr lo n i,
  (n <= length arr)%nat -> Z.of_nat n < 2 ^ 30 ->
  (lo <= i < n)%nat -> (n - i <= fuel)%nat ->
  heap_except arr lo n i ->
  exists arr',
    heapify fuel arr (Z.of_nat n) (Z.of_nat i) = Ret arr' /\
    perm_below n arr arr' /\
    (forall j, (lo <= j)%nat -> heap_at arr' n j).
Proof.
  induction fuel as [| fuel IH]; intros arr lo n i Hn Hsmall Hi Hfuel [Hheap Hgrand];
    [lia |].
  rewrite heapify_unfold.
  rewrite !child_index by lia.
  replace (2 * Z.of_nat i + 1) with (Z.of_nat (2 * i + 1)) by lia.
  replace (2 * Z.of_nat i + 2) with (Z.of_nat (2 * i + 2)) by lia.
  destruct (pick_spec arr n (2 * i + 1) i Hn) as (l1 & -> & Hl1 & Hl1n & Hge1 & Hc1 & Hgt1);
    [lia |]. cbn [bind].
  destruct (pick_spec arr n (2 * i + 2) l1 Hn Hl1n) as (l2 & -> & Hl2 & Hl2n & Hge2 & Hc2 & Hgt2).
  cbn [bind].
  destruct (lookup_lt_is_Some_2 arr i) as [vi Hvi]; [lia |].
  destruct (lookup_lt_is_Some_2 arr l1) as [v1 Hv1]; [lia |].
  destruct (lookup_lt_is_Some_2 arr l2) as [v2 Hv2]; [lia |].
  pose proof (Hge1 _ _ Hv1 Hvi) as Hi1.
  pose proof (Hge2 _ _ Hv2 Hv1) as H12.
  destruct (Z.eqb_spec (Z.of_nat l2) (Z.of_nat i)) as [Heq | Hneq]; cbn [negb].
  - (* the root already holds the largest value *)
    assert (l2 = i) as -> by lia.
    exists arr. split_and!; [done | apply perm_below_refl |].
    intros j Hj. destruct (decide (j = i)) as [-> | Hji]; [| by apply Hheap].
    intros c a b Hc Hcn Ha Hb. assert (a = vi) as -> by congruence.
    destruct Hc as [-> | ->].
    + destruct Hl1 as [-> | ->].
      * apply (Hc1 Hcn _ _ Hvi Hb).
      * destruct Hl2 as [? | ?]; lia.
    + apply (Hc2 Hcn _ _ Hvi Hb).
  - (* exchange with the larger child and continue below *)
    assert (l2 <> i) as Hl2i by lia.
    assert (vi < v2) as Hlt.
    { destruct (decide (l2 = l1)) as [-> | Hne].
      - assert (v1 = v2) as -> by congruence. by apply (Hgt1 Hl2i v2 vi).
      - pose proof (Hgt2 Hne _ _ Hv2 Hv1). lia. }
    assert (l2 = 2 * i + 1 \/ l2 = 2 * i + 2)%nat as Hchild by lia.
    assert (forall c b, (c = 2 * i + 1 \/ c = 2 * i + 2)%nat -> (c < n)%nat ->
              arr !! c = Some b -> b <= v2) as Hdom.
    { intros c b [-> | ->] Hcn Hb.
      - destruct Hl1 as [-> | ->].
        + pose proof (Hc1 Hcn _ _ Hvi Hb). lia.
        + assert (b = v1) as -> by congruence. done.
      - apply (Hc2 Hcn _ _ Hv2 Hb). }
    rewrite (swap_lookup _ _ _ _ _ Hvi Hv2). cbn [bind].
    set (arr1 := <[l2 := vi]> (<[i := v2]> arr)).
    assert (forall k, arr1 !! k = if decide (k = l2) then Some vi
              else if decide (k = i) then Some v2 else arr !! k) as Hlook
      by (intros k; by apply exchange_lookup).
    assert (perm_below n arr arr1) as HP1
      by (apply perm_below_exchange; (done || lia)).
    destruct (IH arr1 lo n l2) as (arr' & Hrun & HP & Hall).
    + rewrite (perm_below_length _ _ _ HP1). done.
    + done.
    + lia.
    + lia.
    + split.
      * intros j Hj Hjl c a b Hc Hcn. rewrite !Hlook.
        destruct (decide (j = l2)) as [? | _]; [done |].
        destruct (decide (j = i)) as [-> | Hji].
        -- intros [= <-]. destruct (decide (c = l2)) as [_ | Hcl].
           ++ intros [= <-]. lia.
           ++ destruct (decide (c = i)) as [? | _]; [lia |].
              intros Hb. by apply (Hdom c).
        -- destruct (decide (c = l2)) as [? | _]; [lia |].
           destruct (decide (c = i)) as [-> | Hci].
           ++ intros Ha [= <-]. apply (Hgrand j l2 a v2); (done || lia).
           ++ intros Ha Hb. by apply (Hheap j Hj Hji c).
      * intros p c a b Hp Hpl Hc Hcn. rewrite !Hlook.
        assert (p = i) as -> by lia.
        destruct (decide (i = l2)) as [? | _]; [done |].
        destruct (decide (i = i)) as [_ | ?]; [| done].
        destruct (decide (c = l2)) as [? | _]; [lia |].
        destruct (decide (c = i)) as [? | _]; [lia |].
        intros [= <-] Hb.
        apply (Hheap l2 ltac:(lia) Hl2i c); done.
    + exists arr'. split_and!; [done | | done].
      eapply perm_below_trans; eassumption.
Qed.

(** The root of a heap holds its largest value. *)
Lemma heap_root_max arr n :
  (forall j, heap_at arr n j) ->
  forall k a b, (k < n)%nat -> arr !! 0%nat = Some a -> arr !! k = Some b -> b <= a.
Proof.
  intros Hheap k. induction (lt_wf k) as [k _ IH]. intros a b Hk Ha Hb.
  destruct k as [| k]; [simplify_eq; lia |].
  set (p := (k / 2)%nat).
  assert (S k = 2 * p + 1 \/ S k = 2 * p + 2)%nat as Hc.
  { unfold p. pose proof (Nat.div_mod_eq k 2).
    pose proof (Nat.mod_upper_bound k 2). lia. }
  destruct (lookup_lt_is_Some_2 arr p) as [x Hx].
  { apply lookup_lt_Some in Hb. lia. }
  transitivity x.
  - apply (Hheap p (S k)); done.
  - apply (IH p); [lia | lia | done | done].
Qed.

(** Heap construction; [k] is the loop variable plus one. *)
Lemma build_loop_spec k : forall fuel arr,
  Z.of_nat (length arr) < 2 ^ 30 ->
  (k <= length arr)%nat -> (k < fuel)%nat ->
  (forall j, (k <= j)%nat -> heap_at arr (length arr) j) ->
  exists arr',
    build_loop fuel arr (Z.of_nat (length arr)) (Z.of_nat k - 1) = Ret arr' /\
    arr ≡ₚ arr' /\ forall j, heap_at arr' (length arr') j.
Proof.
  induction k as [| k IH]; intros fuel arr Hsmall Hk Hfuel Hheap;
    (destruct fuel as [| fuel]; [lia |]); cbn [build_loop].
  - destruct (Z.geb_spec (Z.of_nat 0 - 1) 0); [lia |].
    exists arr. split_and!; [done | done |]. intros j. apply Hheap. lia.
  - replace (Z.of_nat (S k) - 1) with (Z.of_nat k) by lia.
    destruct (Z.geb_spec (Z.of_nat k) 0); [| lia].
    destruct (heapify_spec (S (length arr)) arr k (length arr) k)
      as (arr1 & -> & HP & Hall); [lia | done | lia | lia | |].
    { split; [intros j ? ?; apply Hheap; lia | intros; lia]. }
    cbn [bind].
    pose proof (perm_below_length _ _ _ HP) as Hlen.
    rewrite wrap_int_small by machine_lia.
    destruct (IH fuel arr1) as (arr' & Hrun & HP' & Hall');
      [lia | lia | lia | by rewrite Hlen | ].
    rewrite Hlen in Hrun.
    exists arr'. split_and!; [done | | done].
    etrans; [eapply perm_below_Permutation, HP | done].
Qed.

(** Extraction: the prefix of length [S i] is a heap, the rest is final. *)
Lemma extract_loop_spec i : forall fuel arr,
  Z.of_nat (length arr) < 2 ^ 30 ->
  (i < length arr)%nat -> (i < fuel)%nat ->
  (forall j, heap_at arr (S i) j) ->
  ordered_above arr (S i) ->
  exists arr',
    extract_loop fuel arr (Z.of_nat i) = Ret arr' /\
    arr ≡ₚ arr' /\ ordered_above arr' 0.
Proof.
  induction i as [| i IH]; intros fuel arr Hsmall Hi Hfuel Hheap HO;
    (destruct fuel as [| fuel]; [lia |]); cbn [extract_loop].
  - exists arr. split_and!; [done | done | by apply ordered_above_1].
  - destruct (Z.gtb_spec (Z.of_nat (S i)) 0); [| lia].
    destruct (lookup_lt_is_Some_2 arr 0) as [v0 Hv0]; [lia |].
    destruct (lookup_lt_is_Some_2 arr (S i)) as [vi Hvi]; [lia |].
    pose proof (swap_lookup _ _ _ _ _ Hv0 Hvi) as Hswap.
    change (Z.of_nat 0) with 0 in Hswap. rewrite Hswap. cbn [bind].
    set (arr1 := <[S i := v0]> (<[0%nat := vi]> arr)).
    assert (forall k, arr1 !! k = if decide (k = S i) then Some v0
              else if decide (k = 0%nat) then Some vi else arr !! k) as Hlook
      by (intros k; by apply exchange_lookup).
    assert (perm_below (S (S i)) arr arr1) as HP1
      by (apply perm_below_exchange; (done || lia)).
    pose proof (perm_below_length _ _ _ HP1) as Hlen1.
    pose proof (heap_root_max arr (S (S i)) Hheap) as Hroot.
    destruct (heapify_spec (S (length arr1)) arr1 0 (S i) 0)
      as (arr2 & Hrun2 & HP2 & Hall); [lia | lia | lia | lia | |].
    { split; [| intros; lia].
      intros j _ Hj c a b Hc Hcn. rewrite !Hlook.
      destruct (decide (j = S i)) as [? | _]; [lia |].
      destruct (decide (j = 0%nat)) as [? | _]; [done |].
      destruct (decide (c = S i)) as [? | _]; [lia |].
      destruct (decide (c = 0%nat)) as [? | _]; [lia |].
      intros Ha Hb. apply (Hheap j c); (done || lia). }
    change (Z.of_nat 0) with 0 in Hrun2. rewrite Hlen1 in Hrun2.
    rewrite Hrun2. cbn [bind].
    pose proof (perm_below_length _ _ _ HP2) as Hlen2.
    replace (wrap_int (Z.of_nat (S i) - 1)) with (Z.of_nat i)
      by (rewrite wrap_int_small; machine_lia).
    destruct (IH fuel arr2) as (arr' & Hrun & HP' & HO').
    + lia.
    + lia.
    + lia.
    + intros j. apply Hall. lia.
    + eapply ordered_above_perm_below; [exact HP2 |].
      apply ordered_above_extend.
      * eapply ordered_above_perm_below; eassumption.
      * intros k a b Hk. rewrite !Hlook.
        destruct (decide (S i = S i)) as [_ | ?]; [| done].
        destruct (decide (k = S i)) as [? | _]; [lia |].
        intros Ha [= <-].
        destruct (decide (k = 0%nat)) as [-> | _].
        -- assert (a = vi) as -> by congruence. apply (Hroot (S i)); (done || lia).
        -- apply (Hroot k); (done || lia).
    + exists arr'. split_and!; [done | | done].
      etrans; [eapply perm_below_Permutation, HP1 |].
      etrans; [eapply perm_below_Permutation, HP2 | done].
Qed.

End HeapCorrect.

(** [heapSort] returns on every vector of fewer than 2^30 elements (the
    range in which [2 * i + 2] cannot overflow an [int]) with a fully ordered
    rearrangement of the input. *)
Lemma heapSort_spec (arr : vec) :
  size arr < 2 ^ 30 ->
  exists arr', heapSort arr = Ret arr' /\ arr ≡ₚ arr' /\ ordered_above arr' 0.
Proof.
  intros Hsmall. unfold size in Hsmall.
  destruct (decide (length arr = 0)%nat) as [Hz | Hnz].
  { destruct arr; [| done]. exists []. split_and!; [done | done |].
    intros j k a b _ _ Ha. done. }
  unfold heapSort.
  rewrite (wrap_int_small (size arr)) by machine_lia. unfold size.
  replace (wrap_int (Z.of_nat (length arr) `quot` 2 - 1))
    with (Z.of_nat (length arr / 2) - 1).
  2:{ rewrite Z.quot_div_nonneg by lia.
      rewrite Nat2Z.inj_div.
      pose proof (Z.div_pos (Z.of_nat (length arr)) 2).
      pose proof (Z.div_le_upper_bound (Z.of_nat (length arr)) 2 (Z.of_nat (length arr))).
      rewrite wrap_int_small; machine_lia. }
  pose proof (Nat.div_mod_eq (length arr) 2) as Hdiv.
  pose proof (Nat.mod_upper_bound (length arr) 2) as Hmod.
  destruct (build_loop_spec (length arr / 2) (S (length arr)) arr)
    as (arr1 & -> & HP1 & Hheap); [done | lia | lia | |].
  { intros j Hj c a b Hc Hcn. lia. }
  cbn [bind].
  pose proof (Permutation_length HP1) as Hlen1.
  replace (wrap_int (Z.of_nat (length arr) - 1))
    with (Z.of_nat (length arr - 1)) by (rewrite wrap_int_small; machine_lia).
  destruct (extract_loop_spec (length arr - 1) (S (length arr)) arr1)
    as (arr' & -> & HP' & HO); [lia | lia | lia | | |].
  { replace (S (length arr - 1)) with (length arr1) by lia. done. }
  { intros j k a b _ Hk _ Hb. apply lookup_lt_Some in Hb. lia. }
  exists arr'. split_and!; [done | by etrans | done].
Qed.

(** * Fibonacci numbers *)

Lemma fib_pair_eq k : fib_pair k = (fib k, fib (S k)).
Proof.
  induction k as [| k IH]; [done |].
  unfold fib in *. simpl. destruct (fib_pair k) as [a b]. simpl in *.
  by simplify_eq.
Qed.

Lemma fib_SS k : fib (S (S k)) = fib k + fib (S k).
Proof.
  unfold fib at 1. simpl. rewrite fib_pair_eq. reflexivity.
Qed.

Lemma fib_0 : fib 0 = 0.
Proof. reflexivity. Qed.

Lemma fib_1 : fib 1 = 1.
Proof. reflexivity. Qed.

Lemma fib_nonneg k : 0 <= fib k /\ 0 <= fib (S k).
Proof.
  induction k as [| k [IH1 IH2]]; [by rewrite fib_0, fib_1 |].
  rewrite fib_SS. lia.
Qed.

Lemma fib_pos k : 1 <= fib (S k).
Proof.
  induction k as [| k IH]; [by rewrite fib_1 |].
  rewrite fib_SS. pose proof (fib_nonneg k). lia.
Qed.

Lemma fib_le_S k : fib k <= fib (S k).
Proof.
  destruct k as [| k]; [by rewrite fib_0, fib_1 |].
  rewrite fib_SS. pose proof (fib_nonneg k). lia.
Qed.

Lemma fib_mono j k : (j <= k)%nat -> fib j <= fib k.
Proof.
  induction 1 as [| k _ IH]; [lia |]. pose proof (fib_le_S k). lia.
Qed.

(** F(k+1) >= k: the generation loop needs at most N iterations. *)
Lemma fib_S_ge k : Z.of_nat k <= fib (S k).
Proof.
  induction k as [| k IH]; [by rewrite fib_1 |].
  rewrite fib_SS. destruct k as [| k]; [rewrite fib_0, fib_1; lia |].
  pose proof (fib_pos k). lia.
Qed.

(** F(46) = 1836311903 is the largest Fibonacci number that an [int]
    holds. *)
Lemma fib_46 : fib 46 = 1836311903.
Proof. vm_compute. reflexivity. Qed.

Lemma fib_lt_46 j : fib j < 1836311903 -> (j <= 45)%nat.
Proof.
  intros H. destruct (decide (j <= 45)%nat) as [? | Hbig]; [done |].
  pose proof (fib_mono 46 j ltac:(lia)) as Hm. rewrite fib_46 in Hm. lia.
Qed.

Lemma fib_le_46 j : (j <= 46)%nat -> fib j <= int_max.
Proof.
  intros H. pose proof (fib_mono j 46 H) as Hm. rewrite fib_46 in Hm.
  machine_lia.
Qed.

(** * The steps on Fibonacci triples *)

Lemma gen_step_at k :
  fib (S (S (S k))) <= int_max -> gen_step (triple_at k) = triple_at (S k).
Proof.
  intros Hb. unfold gen_step, triple_at. cbn [fibMMm1 fibM].
  rewrite (fib_SS (S k)) in *.
  pose proof (fib_nonneg (S k)).
  rewrite wrap_int_small by machine_lia. reflexivity.
Qed.

Lemma less_step_at k :
  fib (S (S k)) <= int_max -> less_step (triple_at (S k)) = triple_at k.
Proof.
  intros Hb. unfold less_step, triple_at. cbn [fibMMm2 fibMMm1 fibM].
  rewrite (fib_SS k) in *. pose proof (fib_nonneg k).
  rewrite wrap_int_small by machine_lia. f_equal. lia.
Qed.

Lemma greater_step_at k :
  fib (S (S (S k))) <= int_max ->
  greater_step (triple_at (S (S k))) = triple_at k.
Proof.
  intros Hb. unfold greater_step, triple_at. cbn [fibMMm2 fibMMm1 fibM].
  rewrite (fib_SS (S k)) in *. rewrite (fib_SS k) in *.
  pose proof (fib_nonneg k).
  replace (fib (S k) + (fib k + fib (S k)) - (fib k + fib (S k))) with (fib (S k)) by lia.
  rewrite (wrap_int_small (fib (S k))) by machine_lia.
  replace (fib k + fib (S k) - fib (S k)) with (fib k) by lia.
  rewrite wrap_int_small by machine_lia. reflexivity.
Qed.

Lemma greater_step_1 : greater_step (triple_at 1) = triple_low.
Proof. reflexivity. Qed.

Lemma init_triple_at : init_triple = triple_at 0.
Proof. reflexivity. Qed.

(** * Fibonacci search *)

Section FibCorrect.

Implicit Types (arr : vec) (k : nat) (t : triple).

Lemma at_in_bounds arr (i : Z) :
  0 <= i < size arr -> exists x, at_ arr i = Ret x /\ arr !! Z.to_nat i = Some x.
Proof.
  intros Hi. unfold at_.
  destruct (Z.ltb_spec i 0); [lia |].
  destruct (lookup_lt_is_Some_2 arr (Z.to_nat i)) as [x Hx]; [machine_lia |].
  exists x. by rewrite Hx.
Qed.

Lemma tread_bind {B : Type} arr (i x : Z) (f : Z -> traced B) :
  at_ arr i = Ret x ->
  tbind (tread arr i) f = (i :: fst (f x), snd (f x)).
Proof. intros H. unfold tread, tbind. rewrite H. by destruct (f x). Qed.

(** The generation loop stops at the first triple whose [fibM] reaches [n]. *)
Lemma generate_spec fuel : forall k (n : Z),
  n <= 1836311903 ->
  (k = 0%nat \/ fib (S k) < n) ->
  (1 <= fuel)%nat -> n < Z.of_nat fuel + Z.of_nat k ->
  exists k',
    generate fuel n (triple_at k) = Ret (triple_at k') /\
    n <= fib (S (S k')) /\ (k' = 0%nat \/ fib (S k') < n).
Proof.
  induction fuel as [| fuel IH]; intros k n Hn Hk Hfuel Hlt; [lia |].
  cbn [generate]. cbn [triple_at fibM].
  destruct (Z.ltb_spec (fib (S (S k))) n) as [Hcont | Hstop].
  - rewrite gen_step_at
      by (apply fib_le_46; pose proof (fib_lt_46 (S (S k)) ltac:(lia)); lia).
    pose proof (fib_S_ge k). pose proof (fib_le_S (S k)).
    apply IH; [done | by right | lia | lia].
  - exists k. done.
Qed.

Lemma generate_fuel_mono fuel : forall fuel' (n : Z) t t',
  (fuel <= fuel')%nat ->
  generate fuel n t = Ret t' -> generate fuel' n t = Ret t'.
Proof.
  induction fuel as [| fuel IH]; intros fuel' n t t' Hle; [done |].
  destruct fuel' as [| fuel']; [lia |]. cbn [generate].
  destruct (fibM t <? n); [apply IH; lia | done].
Qed.

(** The search loop from a reachable state: it returns, every index it
    reads is inside the vector, a returned index holds the target, and on
    an ordered vector a target inside the window is found. *)
(** Every recorded read is inside the vector. *)
Ltac trace_ok :=
  cbn [fst snd]; repeat (apply List.Forall_cons; [lia |]);
  (assumption || apply List.Forall_nil).

Lemma search_loop_spec fuel : forall arr (target : Z) k t (offset : Z),
  size arr <= int_max ->
  fib_state k t -> offset + fib (S (S k)) <= int_max -> (k < fuel)%nat ->
  (k = 0%nat \/ 0 < size arr) ->
  -1 <= offset < size arr ->
  exists r,
    snd (search_loop fuel arr (size arr) target t offset) = Ret r /\
    Forall (fun i => 0 <= i < size arr)
      (fst (search_loop fuel arr (size arr) target t offset)) /\
    (r = -1 \/ (0 <= r < size arr /\ arr !! Z.to_nat r = Some target)) /\
    (ordered_above arr 0 -> in_window arr target t offset -> t = triple_at k ->
     r <> -1).
Proof.
  induction fuel as [| fuel IH];
    intros arr target k t offset Hsmall Hst Hfib Hfuel Hn Hoff; [lia |].
  cbn [search_loop].
  destruct Hst as [-> | [-> ->]].
  2:{ (* the triple (1, 0, 1): nothing is read *)
      exists (-1). cbn. split_and!; [done | constructor | by left | done]. }
  destruct k as [| k].
  - (* the triple (0, 1, 1): only the residual check *)
    change (triple_at 0) with (Triple 0 1 1). cbn [fibM fibMMm1].
    change (1 >? 1) with false. change (negb (1 =? 0)) with true.
    change (fib 2) with 1 in Hfib.
    cbn [andb]. rewrite wrap_int_small by machine_lia.
    destruct (Z.ltb_spec (offset + 1) (size arr)) as [Hin | Hout].
    + destruct (at_in_bounds arr (offset + 1)) as (x & Hx & Hlook); [lia |].
      rewrite (tread_bind _ _ _ _ Hx).
      destruct (Z.eqb_spec x target) as [-> | Hne]; cbn [tret fst snd].
      * exists (offset + 1). split_and!; [done | trace_ok | right; split; [lia | done] | lia].
      * exists (-1). split_and!; [done | trace_ok | by left |].
        intros _ (p & Hp & Hwin) _. cbn [fibM] in Hwin.
        replace (Z.to_nat (offset + 1)) with p in Hlook by lia. congruence.
    + exists (-1). cbn [tret fst snd]. split_and!; [done | constructor | by left |].
      intros _ (p & Hp & Hwin) _. cbn [fibM] in Hwin.
      apply lookup_lt_Some in Hp. machine_lia.
  - (* a probe *)
    assert (0 < size arr) as Hpos by (destruct Hn; [done | lia]).
    pose proof (fib_pos k) as Hk1. pose proof (fib_pos (S k)) as Hk2.
    pose proof (fib_le_S (S k)) as Hmono.
    cbn [triple_at fibM fibMMm2].
    rewrite (fib_SS (S k)) in *.
    destruct (Z.gtb_spec (fib (S k) + fib (S (S k))) 1) as [_ | ?]; [| lia].
    rewrite (wrap_int_small (offset + _)) by machine_lia.
    rewrite (wrap_int_small (size arr - 1)) by machine_lia.
    set (i := Z.min (offset + fib (S k)) (size arr - 1)).
    assert (0 <= i < size arr) as Hi by lia.
    assert (i <= offset + fib (S k)) as Hile by lia.
    destruct (at_in_bounds arr i Hi) as (x & Hx & Hlook).
    rewrite (tread_bind _ _ _ _ Hx).
    fold (triple_at (S k)).
    destruct (Z.ltb_spec x target) as [Hless | Hnl].
    + (* arr[i] < target *)
      rewrite less_step_at by machine_lia.
      destruct (IH arr target k (triple_at k) i) as (r & Hr & Htr & Hres & Hfound);
        [done | by left | machine_lia | lia | by right | lia |].
      exists r. cbn [fst snd]. split_and!; [done | trace_ok | done |].
      intros Hord (p & Hp & Hwin) _. apply Hfound; [done | | done].
      exists p. split; [done |].
      cbn [triple_at fibM] in *. rewrite (fib_SS (S k)) in Hwin.
      apply lookup_lt_Some in Hp as Hplen. clear Hile.
      assert (i < Z.of_nat p).
      { destruct (Z.lt_ge_cases i (Z.of_nat p)) as [? | Hge]; [done |].
        pose proof (Hord p (Z.to_nat i) target x ltac:(lia) ltac:(lia) Hp Hlook). lia. }
      machine_lia.
    + rewrite (tread_bind _ _ _ _ Hx).
      destruct (Z.gtb_spec x target) as [Hgreater | Hng].
      * (* arr[i] > target *)
        assert (forall p : nat, ordered_above arr 0 -> arr !! p = Some target ->
                  Z.of_nat p < i) as Hbefore.
        { intros p Hord Hp.
          destruct (Z.lt_ge_cases (Z.of_nat p) i) as [? | Hge]; [done |].
          pose proof (Hord (Z.to_nat i) p x target ltac:(lia) ltac:(lia) Hlook Hp). lia. }
        destruct k as [| k].
        -- rewrite greater_step_1.
           destruct (IH arr target 0%nat triple_low offset) as (r & Hr & Htr & Hres & _);
             [done | by right | machine_lia | lia | by left | done |].
           exists r. cbn [fst snd]. split_and!; [done | trace_ok | done |].
           intros Hord (p & Hp & Hwin) _.
           pose proof (Hbefore p Hord Hp). unfold i in *.
           change (fib 1) with 1 in *. lia.
        -- rewrite greater_step_at by machine_lia.
           destruct (IH arr target k (triple_at k) offset) as (r & Hr & Htr & Hres & Hfound);
             [done | by left | machine_lia | lia | by right | done |].
           exists r. cbn [fst snd]. split_and!; [done | trace_ok | done |].
           intros Hord (p & Hp & Hwin) _. apply Hfound; [done | | done].
           exists p. split; [done |].
           pose proof (Hbefore p Hord Hp). cbn [triple_at fibM]. lia.
      * (* arr[i] == target *)
        assert (x = target) as -> by lia.
        exists i. cbn [tret fst snd].
        split_and!; [done | trace_ok | by right | lia].
Qed.

End FibCorrect.

Section FibRun.

Implicit Types (arr : vec) (k : nat) (t : triple).

Lemma tlift_bind {A B : Type} (a : A) (f : A -> traced B) :
  tbind (tlift (Ret a)) f = f a.
Proof. unfold tbind, tlift. by destruct (f a). Qed.

Lemma nondecreasing_ordered_above arr : nondecreasing arr -> ordered_above arr 0.
Proof.
  intros H. apply (adjacent_ordered_above (length arr)).
  - intros k a b _. apply H.
  - intros j k a b _ Hk _ Hb. apply lookup_lt_Some in Hb. lia.
Qed.

(** More fuel does not change a run that did not run out of fuel. *)
Lemma search_loop_fuel_mono fuel : forall fuel' arr (n target : Z) t (offset : Z),
  (fuel <= fuel')%nat ->
  snd (search_loop fuel arr n target t offset) <> OutOfFuel ->
  search_loop fuel' arr n target t offset = search_loop fuel arr n target t offset.
Proof.
  induction fuel as [| fuel IH]; intros fuel' arr n target t offset Hle Hrun;
    [done |].
  destruct fuel' as [| fuel']; [lia |].
  revert Hrun. cbn [search_loop].
  destruct (fibM t >? 1); [| done].
  set (i := Z.min _ _).
  destruct (at_ arr i) as [x | j |] eqn:Hx;
    [| by unfold tbind, tread; rewrite Hx .. ].
  repeat (rewrite (tread_bind _ _ _ _ Hx); cbv beta).
  destruct (x <? target).
  - cbn [snd]. intros Hrun. rewrite (IH fuel') by (done || lia). done.
  - repeat (rewrite (tread_bind _ _ _ _ Hx); cbv beta).
    destruct (x >? target); [| done].
    cbn [fst snd]. intros Hrun. rewrite (IH fuel') by (done || lia). done.
Qed.

(** The triple the generation loop stops at fits the [int] range. *)
Lemma generated_in_range k (n : Z) :
  n <= 1836311903 -> (k = 0%nat \/ fib (S k) < n) ->
  -1 + fib (S (S k)) <= int_max.
Proof.
  intros Hn [-> | Hlt]; [change (fib 2) with 1; machine_lia |].
  pose proof (fib_lt_46 (S k) ltac:(lia)).
  pose proof (fib_le_46 (S (S k)) ltac:(lia)). lia.
Qed.

(** The whole routine, for any fuel above the length of the vector. *)
Lemma fibonacciSearch_run_spec fuel arr (target : Z) :
  size arr <= 1836311903 -> (length arr < fuel)%nat ->
  exists k r,
    generate fuel (wrap_int (size arr)) init_triple = Ret (triple_at k) /\
    size arr <= fib (S (S k)) /\ (k = 0%nat \/ fib (S k) < size arr) /\
    snd (fibonacciSearch_run fuel arr target) = Ret r /\
    Forall (fun i => 0 <= i < size arr) (fst (fibonacciSearch_run fuel arr target)) /\
    (r = -1 \/ (0 <= r < size arr /\ arr !! Z.to_nat r = Some target)) /\
    (ordered_above arr 0 -> target ∈ arr -> r <> -1).
Proof.
  intros Hsmall Hfuel. unfold fibonacciSearch_run.
  assert (0 <= size arr) as Hnn by machine_lia.
  rewrite (wrap_int_small (size arr)) by machine_lia.
  rewrite init_triple_at.
  destruct (generate_spec fuel 0 (size arr)) as (k & Hgen & Hreach & Hk);
    [done | by left | lia | machine_lia |].
  rewrite Hgen, tlift_bind.
  pose proof (fib_pos k) as Hpos. pose proof (fib_S_ge k) as Hge.
  destruct (search_loop_spec fuel arr target k (triple_at k) (-1))
    as (r & Hr & Htr & Hres & Hfound).
  - machine_lia.
  - by left.
  - by apply (generated_in_range k (size arr)).
  - destruct Hk as [-> | ?]; [lia | machine_lia].
  - destruct Hk as [-> | ?]; [by left | right; lia].
  - lia.
  - exists k, r. split_and!; [done .. |].
    intros Hord Hin. apply Hfound; [done | | done].
    apply list_elem_of_lookup in Hin as [p Hp]. exists p. split; [done |].
    apply lookup_lt_Some in Hp. cbn [triple_at fibM]. machine_lia.
Qed.

Lemma fibonacciSearch_run_fuel fuel arr (target : Z) :
  size arr <= 1836311903 -> (length arr < fuel)%nat ->
  fibonacciSearch_run fuel arr target
  = fibonacciSearch_run (S (length arr)) arr target.
Proof.
  intros Hsmall Hfuel.
  destruct (fibonacciSearch_run_spec (S (length arr)) arr target Hsmall)
    as (k & r & Hgen & _ & _ & Hr & _); [lia |].
  revert Hr. unfold fibonacciSearch_run.
  rewrite (generate_fuel_mono (S (length arr)) fuel _ _ _ ltac:(lia) Hgen).
  rewrite Hgen, !tlift_bind.
  intros Hr. apply search_loop_fuel_mono; [lia | by rewrite Hr].
Qed.

End FibRun.

(** * At the edge of the [int] range *)

Section IntRange.

Implicit Types (arr : vec) (N : nat).

Lemma at_nonneg arr (i x : Z) :
  0 <= i -> arr !! Z.to_nat i = Some x -> at_ arr i = Ret x.
Proof.
  intros Hi H. unfold at_. destruct (Z.ltb_spec i 0); [lia |]. rewrite H.
  reflexivity.
Qed.

Lemma at_negative arr (i : Z) : i < 0 -> at_ arr i = OutOfBounds i.
Proof. intros Hi. unfold at_. destruct (Z.ltb_spec i 0); [reflexivity | lia]. Qed.

(** Zeros followed by a one. *)
Lemma zeros_one_size N : size (replicate N 0 ++ [1]) = Z.of_nat N + 1.
Proof. unfold size. rewrite length_app, length_replicate. cbn [length]. lia. Qed.

Lemma zeros_one_lookup N (i : nat) :
  (i < N)%nat -> (replicate N 0 ++ [1]) !! i = Some 0.
Proof.
  intros Hi. rewrite lookup_app_l by (rewrite length_replicate; exact Hi).
  apply lookup_replicate_2, Hi.
Qed.

Lemma zeros_one_last N : (replicate N 0 ++ [1]) !! N = Some 1.
Proof. apply list_lookup_middle. symmetry. apply length_replicate. Qed.

Lemma zeros_one_nondecreasing N : nondecreasing (replicate N 0 ++ [1]).
Proof.
  apply Sorted_nondecreasing. induction N as [| N IH]; [repeat constructor |].
  cbn [replicate app]. constructor; [exact IH |].
  destruct N; cbn [replicate app]; constructor; lia.
Qed.

Lemma zeros_one_elem N (x : Z) : x ∈ replicate N 0 ++ [1] -> x = 0 \/ x = 1.
Proof.
  intros H. apply elem_of_app in H as [H | H].
  - left. by apply elem_of_replicate_inv in H.
  - right. by apply list_elem_of_singleton in H.
Qed.

(** *** Heap sort on 2^30 elements *)

Lemma build_loop_step fuel arr (n i : Z) :
  0 <= i ->
  build_loop (S fuel) arr n i
  = (do arr' <- heapify (S (length arr)) arr n i ;
     build_loop fuel arr' n (wrap_int (i - 1))).
Proof.
  intros Hi. cbn [build_loop]. destruct (Z.geb_spec i 0); [reflexivity | lia].
Qed.

Lemma pick_take arr (n cand largest x y : Z) :
  cand < n -> at_ arr cand = Ret x -> at_ arr largest = Ret y -> y < x ->
  pick arr n cand largest = Ret cand.
Proof.
  intros Hc Hx Hy Hlt. unfold pick.
  destruct (Z.ltb_spec cand n); [| lia]. rewrite Hx, Hy. cbn [bind].
  destruct (Z.gtb_spec x y); [reflexivity | lia].
Qed.

Lemma pick_skip arr (n cand largest : Z) :
  n <= cand -> pick arr n cand largest = Ret largest.
Proof.
  intros Hc. unfold pick. destruct (Z.ltb_spec cand n); [lia | reflexivity].
Qed.

Lemma pick_negative arr (n cand largest : Z) :
  cand < n -> cand < 0 -> pick arr n cand largest = OutOfBounds cand.
Proof.
  intros Hc Hneg. unfold pick. destruct (Z.ltb_spec cand n); [| lia].
  rewrite at_negative by exact Hneg. reflexivity.
Qed.

(** On 2^30 elements the first sift-down (at [i = 2^29 - 1]) moves to the
    last element when that one is larger; there [2 * i + 2] is 2^31, which
    wraps to -2^31, passes the test [right < n] and is used as an index. *)
Lemma heapSort_overflow arr (a b : Z) :
  size arr = 1073741824 ->
  arr !! Z.to_nat 536870911 = Some a ->
  arr !! Z.to_nat 1073741823 = Some b ->
  a < b ->
  heapSort arr = OutOfBounds (-2147483648).
Proof.
  intros Hsize Ha Hb Hab.
  pose proof (at_nonneg arr 536870911 a ltac:(lia) Ha) as Hata.
  pose proof (at_nonneg arr 1073741823 b ltac:(lia) Hb) as Hatb.
  unfold heapSort. rewrite Hsize.
  change (wrap_int 1073741824) with 1073741824.
  change (wrap_int (1073741824 `quot` 2 - 1)) with 536870911.
  rewrite build_loop_step by lia.
  destruct (length arr) as [| m] eqn:Hlen; [unfold size in Hsize; lia |].
  rewrite heapify_unfold.
  change (wrap_int (wrap_int (2 * 536870911) + 1)) with 1073741823.
  change (wrap_int (wrap_int (2 * 536870911) + 2)) with 1073741824.
  rewrite (pick_take arr _ _ _ b a) by (lia || assumption). cbn [bind].
  rewrite pick_skip by lia. cbn [bind].
  destruct (Z.eqb_spec 1073741823 536870911) as [? | _]; [lia |]. cbn [negb].
  unfold swap at 1. rewrite Hata, Hatb. cbn [bind].
  rewrite heapify_unfold.
  change (wrap_int (wrap_int (2 * 1073741823) + 1)) with 2147483647.
  change (wrap_int (wrap_int (2 * 1073741823) + 2)) with (-2147483648).
  rewrite pick_skip by lia. cbn [bind].
  rewrite pick_negative by lia. reflexivity.
Qed.

(** *** Fibonacci search on F(46) + 1 elements *)

Lemma search_loop_less fuel arr (n target : Z) t (offset i x : Z) t' :
  (fibM t >? 1) = true ->
  Z.min (wrap_int (offset + fibMMm2 t)) (wrap_int (n - 1)) = i ->
  at_ arr i = Ret x -> (x <? target) = true -> less_step t = t' ->
  search_loop (S fuel) arr n target t offset
  = (i :: fst (search_loop fuel arr n target t' i),
     snd (search_loop fuel arr n target t' i)).
Proof.
  intros Hg Hi Hx Hlt Ht. cbn [search_loop]. rewrite Hg, Hi.
  rewrite (tread_bind _ _ _ _ Hx). rewrite Hlt, Ht. reflexivity.
Qed.

Lemma search_loop_negative fuel arr (n target : Z) t (offset i : Z) :
  (fibM t >? 1) = true ->
  Z.min (wrap_int (offset + fibMMm2 t)) (wrap_int (n - 1)) = i ->
  i < 0 ->
  search_loop (S fuel) arr n target t offset = ([i], OutOfBounds i).
Proof.
  intros Hg Hi Hneg. cbn [search_loop]. rewrite Hg, Hi.
  unfold tbind, tread. rewrite at_negative by exact Hneg. reflexivity.
Qed.

(** With N = F(46) + 1 the sum F(45) + F(46) leaves the [int] range; the
    wrapped values go on until one of them reaches N. *)
Lemma generate_overflow fuel arr :
  size arr = 1836311904 -> (length arr < fuel)%nat ->
  generate fuel (wrap_int (size arr)) init_triple
  = Ret (Triple 1776683621 368225352 2144908973).
Proof.
  intros Hsize Hfuel. rewrite Hsize.
  change (wrap_int 1836311904) with 1836311904.
  apply (generate_fuel_mono 60); [unfold size in Hsize; lia |].
  vm_compute. reflexivity.
Qed.

(** The search then reads two elements and, when both are smaller than the
    target, computes a negative third index. *)
Lemma fibonacciSearch_overflow fuel arr (v a b : Z) :
  size arr = 1836311904 ->
  arr !! Z.to_nat 1776683620 = Some a -> a < v ->
  arr !! Z.to_nat 368225351 = Some b -> b < v ->
  (length arr < fuel)%nat ->
  fibonacciSearch_run fuel arr v
  = ([1776683620; 368225351; -741600055], OutOfBounds (-741600055)).
Proof.
  intros Hsize Ha Hav Hb Hbv Hfuel. unfold fibonacciSearch_run.
  rewrite (generate_overflow fuel arr Hsize Hfuel), tlift_bind.
  rewrite Hsize. change (wrap_int 1836311904) with 1836311904.
  destruct fuel as [| [| [| fuel]]]; [unfold size in Hsize; lia .. |].
  rewrite (search_loop_less _ arr _ v _ (-1) 1776683620 a
             (Triple (-1408458269) 1776683621 368225352));
    [| vm_compute; reflexivity | vm_compute; reflexivity
     | apply at_nonneg; [lia | exact Ha] | apply Z.ltb_lt; exact Hav
     | vm_compute; reflexivity].
  rewrite (search_loop_less _ arr _ v _ 1776683620 368225351 b
             (Triple (-1109825406) (-1408458269) 1776683621));
    [| vm_compute; reflexivity | vm_compute; reflexivity
     | apply at_nonneg; [lia | exact Hb] | apply Z.ltb_lt; exact Hbv
     | vm_compute; reflexivity].
  rewrite (search_loop_negative _ arr _ v _ 368225351 (-741600055));
    [| vm_compute; reflexivity | vm_compute; reflexivity | lia].
  reflexivity.
Qed.

(** The two vectors of the definitions. *)
Lemma heap_overflow_input_run :
  size heap_overflow_input = 1073741824 /\
  heapSort heap_overflow_input = OutOfBounds (-2147483648).
Proof.
  assert (size heap_overflow_input = 1073741824) as Hsize.
  { rewrite zeros_one_size, Z2Nat.id by lia. reflexivity. }
  split; [exact Hsize |].
  apply (heapSort_overflow _ 0 1); [exact Hsize | | | lia].
  - apply zeros_one_lookup. apply Z2Nat.inj_lt; lia.
  - apply zeros_one_last.
Qed.

Lemma fib_overflow_input_size : size fib_overflow_input = 1836311904.
Proof.
  rewrite zeros_one_size, Z2Nat.id by lia. reflexivity.
Qed.

Lemma fib_overflow_input_run fuel (v : Z) :
  0 < v -> (length fib_overflow_input < fuel)%nat ->
  fibonacciSearch_run fuel fib_overflow_input v
  = ([1776683620; 368225351; -741600055], OutOfBounds (-741600055)).
Proof.
  intros Hv Hfuel.
  apply (fibonacciSearch_overflow fuel _ v 0 0);
    [apply fib_overflow_input_size | | exact Hv | | exact Hv | exact Hfuel];
    apply zeros_one_lookup; apply Z2Nat.inj_lt; lia.
Qed.

Lemma fib_overflow_input_search (v : Z) :
  0 < v ->
  fibonacciSearch fib_overflow_input v = OutOfBounds (-741600055) /\
  probes fib_overflow_input v = [1776683620; 368225351; -741600055].
Proof.
  intros Hv. unfold fibonacciSearch, probes.
  rewrite (fib_overflow_input_run (S (length fib_overflow_input)) v Hv
             (Nat.lt_succ_diag_r _)).
  split; reflexivity.
Qed.

End IntRange.

(** * The claims *)

(** ** Bubble sort *)

(** C1.  The claim asks for a sorted rearrangement of every sequence.  On the
    empty vector [beads.size() - 1] wraps around to 2^64 - 1, both loops are
    entered and [beads[0]] is read from a vector without elements: the run of
    [bubbleSort] on the empty vector is an out-of-bounds read and returns no
    vector at all.  ([bubbleSort_sorts_nonempty] above proves the claim for
    every non-empty vector.) *)
Theorem bubbleSort_empty_out_of_bounds :
  bubbleSort [] = OutOfBounds 0 /\
  ~ exists beads', bubbleSort [] = Ret beads'.
Proof.
  assert (bubbleSort [] = OutOfBounds 0) as H by (vm_compute; reflexivity).
  split; [done |]. intros [beads' H']. congruence.
Qed.

(** C5.  A single-element vector is left unchanged without any read, but on
    the empty vector the pass bound [beads.size() - 1] underflows to the
    largest [size_t], the inner bound [beads.size() - 0 - 1] does the same,
    and the first comparison reads index 0 out of bounds: the no-op the claim
    requires does not happen. *)
Theorem bubbleSort_degenerate_sizes :
  (forall x, bubbleSort [x] = Ret [x]) /\
  wrap_size (size [] - 1) = size_max /\
  wrap_size (wrap_size (size [] - 0) - 1) = size_max /\
  bubbleSort [] <> Ret [] /\
  inner_loop 1 [] 0 0 false = OutOfBounds 0.
Proof.
  split_and!; [intros x | ..]; vm_compute; (reflexivity || discriminate).
Qed.

(** ** Heap sort *)

(** C2, as stated for every finite sequence, fails at 2^30 elements: on
    [heap_overflow_input] the first sift-down reaches the last element, where
    [2 * i + 2] overflows the [int] range, and the run is an out-of-bounds
    read instead of a sorted vector. *)
Lemma heapSort_fails_at_2_30 :
  size heap_overflow_input = 2 ^ 30 /\
  heapSort heap_overflow_input = OutOfBounds (-2147483648) /\
  ~ exists arr',
      heapSort heap_overflow_input = Ret arr' /\
      nondecreasing arr' /\ arr' ≡ₚ heap_overflow_input /\
      length arr' = length heap_overflow_input.
Proof.
  destruct heap_overflow_input_run as [Hsize Hrun].
  split_and!; [exact Hsize | exact Hrun |].
  intros (arr' & Hret & _). rewrite Hrun in Hret. discriminate.
Qed.

(** C2, amended.  For every vector of fewer than 2^30 integers [heapSort]
    returns, and the vector it leaves is non-decreasing at every adjacent
    pair and a rearrangement of the input (same values with the same
    multiplicities, same length). *)
Theorem heapSort_sorts (arr : vec) :
  size arr < 2 ^ 30 ->
  exists arr',
    heapSort arr = Ret arr' /\
    nondecreasing arr' /\ arr' ≡ₚ arr /\ length arr' = length arr.
Proof.
  intros Hsmall.
  destruct (heapSort_spec arr Hsmall) as (arr' & Hrun & HP & HO).
  exists arr'. split_and!.
  - exact Hrun.
  - by apply ordered_above_nondecreasing.
  - by symmetry.
  - symmetry. by apply Permutation_length.
Qed.

Lemma heapSort_sorts_witness :
  exists arr',
    heapSort [12; 3; 5; 7; 19; 1] = Ret arr' /\
    nondecreasing arr' /\ arr' ≡ₚ [12; 3; 5; 7; 19; 1] /\
    length arr' = length [12; 3; 5; 7; 19; 1].
Proof. apply (heapSort_sorts [12; 3; 5; 7; 19; 1]). vm_compute. reflexivity. Defined.

(** ** Idempotence *)

(** Sorting a non-decreasing vector again returns it unchanged. *)
Lemma heapSort_sorted_fixed (arr : vec) :
  size arr < 2 ^ 30 -> nondecreasing arr -> heapSort arr = Ret arr.
Proof.
  intros Hsmall Hnd.
  destruct (heapSort_spec arr Hsmall) as (arr' & -> & HP & HO).
  f_equal. symmetry.
  apply nondecreasing_unique; [done | by apply ordered_above_nondecreasing | done].
Qed.

Lemma bubbleSort_sorted_fixed (arr : vec) :
  arr <> [] -> size arr <= size_max -> nondecreasing arr -> bubbleSort arr = Ret arr.
Proof.
  intros Hne Hsmall Hnd.
  destruct (bubbleSort_spec arr Hne Hsmall) as (arr' & -> & HP & HO).
  f_equal. symmetry.
  apply nondecreasing_unique; [done | by apply ordered_above_nondecreasing | done].
Qed.

(** X8.  [heapSort] is idempotent on every vector of fewer than 2^30 integers. *)
Lemma heapSort_idempotent (arr : vec) :
  size arr < 2 ^ 30 ->
  exists arr', heapSort arr = Ret arr' /\ heapSort arr' = Ret arr'.
Proof.
  intros Hsmall.
  destruct (heapSort_spec arr Hsmall) as (arr' & HS & HP & HO).
  exists arr'. split; [done |].
  apply heapSort_sorted_fixed.
  - unfold size in *. by rewrite <- (Permutation_length HP).
  - by apply ordered_above_nondecreasing.
Qed.

(** X4.  [bubbleSort] is idempotent on every non-empty vector. *)
Lemma bubbleSort_idempotent_nonempty (arr : vec) :
  arr <> [] -> size arr <= size_max ->
  exists arr', bubbleSort arr = Ret arr' /\ bubbleSort arr' = Ret arr'.
Proof.
  intros Hne Hsmall.
  destruct (bubbleSort_spec arr Hne Hsmall) as (arr' & HS & HP & HO).
  pose proof (Permutation_length HP) as Hlen.
  exists arr'. split; [done |].
  apply bubbleSort_sorted_fixed.
  - intros ->. destruct arr; done.
  - unfold size in *. by rewrite <- Hlen.
  - by apply ordered_above_nondecreasing.
Qed.

(** C8.  [sort(sort(arr)) == sort(arr)] needs [sort(arr)] to be a vector.  For
    [bubbleSort] and the empty vector there is none: the first application
    already reads out of bounds (the underflow of C1 and C5), so neither side
    of the equation is the empty vector the claim expects.  (For [heapSort],
    and for [bubbleSort] on non-empty vectors, idempotence is proved in
    [heapSort_idempotent] and [bubbleSort_idempotent_nonempty].) *)
Theorem bubbleSort_twice_empty :
  (do arr' <- bubbleSort []; bubbleSort arr') = OutOfBounds 0 /\
  ~ exists arr', bubbleSort [] = Ret arr' /\ bubbleSort arr' = Ret arr'.
Proof.
  assert (bubbleSort [] = OutOfBounds 0) as H by (vm_compute; reflexivity).
  split; [by rewrite H |]. intros (arr' & H' & _). congruence.
Qed.

(** ** Fibonacci search *)

(** C3, as stated for every sorted sequence, fails at F(46) + 1 = 1836311904
    elements: [fib_overflow_input] is non-decreasing and contains 1, but the
    generation loop overflows the [int] range and the third index the search
    computes is negative, so no index is returned. *)
Lemma fibonacciSearch_finds_fails_beyond_F46 :
  nondecreasing fib_overflow_input /\
  1 ∈ fib_overflow_input /\
  fibonacciSearch fib_overflow_input 1 = OutOfBounds (-741600055) /\
  ~ exists i,
      fibonacciSearch fib_overflow_input 1 = Ret i /\
      0 <= i < size fib_overflow_input /\
      fib_overflow_input !! Z.to_nat i = Some 1.
Proof.
  destruct (fib_overflow_input_search 1 ltac:(lia)) as [Hrun _].
  split_and!.
  - apply zeros_one_nondecreasing.
  - apply list_elem_of_lookup. exists (Z.to_nat 1836311903). apply zeros_one_last.
  - exact Hrun.
  - intros (i & Hret & _). rewrite Hrun in Hret. discriminate.
Qed.

(** C3, amended.  On a non-decreasing vector of at most F(46) = 1836311903
    integers that contains [v], [fibonacciSearch] returns an index [i] with
    [0 <= i < |arr|] and [arr[i] == v]. *)
Theorem fibonacciSearch_finds (arr : vec) (v : Z) :
  size arr <= 1836311903 -> nondecreasing arr -> v ∈ arr ->
  exists i,
    fibonacciSearch arr v = Ret i /\
    0 <= i < size arr /\ arr !! Z.to_nat i = Some v.
Proof.
  intros Hsmall Hnd Hin. unfold fibonacciSearch.
  destruct (fibonacciSearch_run_spec (S (length arr)) arr v Hsmall)
    as (k & r & _ & _ & _ & Hr & _ & Hres & Hfound); [lia |].
  exists r. split; [done |].
  destruct Hres as [-> | ?]; [| done].
  exfalso. apply Hfound; [by apply nondecreasing_ordered_above | done | done].
Qed.

Lemma fibonacciSearch_finds_witness :
  exists i,
    fibonacciSearch [10; 22; 35; 40; 45; 50; 80; 82; 85; 90; 100] 85 = Ret i /\
    0 <= i < size [10; 22; 35; 40; 45; 50; 80; 82; 85; 90; 100] /\
    [10; 22; 35; 40; 45; 50; 80; 82; 85; 90; 100] !! Z.to_nat i = Some 85.
Proof.
  apply (fibonacciSearch_finds [10; 22; 35; 40; 45; 50; 80; 82; 85; 90; 100] 85).
  - vm_compute. discriminate.
  - apply Sorted_nondecreasing. repeat constructor; lia.
  - apply list_elem_of_lookup. exists 8%nat. reflexivity.
Defined.

(** C4, as stated for every sorted sequence, fails at 1836311904 elements:
    [fib_overflow_input] is non-decreasing and does not contain 2, but the
    search for 2 ends in an out-of-bounds read instead of returning -1. *)
Lemma fibonacciSearch_absent_fails_beyond_F46 :
  nondecreasing fib_overflow_input /\
(2 ∉ fib_overflow_input) /\
  fibonacciSearch fib_overflow_input 2 = OutOfBounds (-741600055) /\
  fibonacciSearch fib_overflow_input 2 <> Ret (-1).
Proof.
  destruct (fib_overflow_input_search 2 ltac:(lia)) as [Hrun _].
  split_and!.
  - apply zeros_one_nondecreasing.
  - intros Hin. apply zeros_one_elem in Hin. lia.
  - exact Hrun.
  - rewrite Hrun. discriminate.
Qed.

(** C4, amended.  On a non-decreasing vector of at most F(46) = 1836311903
    integers that does not contain [v], [fibonacciSearch] returns -1; in
    particular it returns -1 on the empty vector for every target. *)
Theorem fibonacciSearch_absent (arr : vec) (v : Z) :
  size arr <= 1836311903 -> nondecreasing arr -> v ∉ arr ->
  fibonacciSearch arr v = Ret (-1) /\
  forall w, fibonacciSearch [] w = Ret (-1).
Proof.
  intros Hsmall _ Hout. split; [| intros w; reflexivity].
  unfold fibonacciSearch.
  destruct (fibonacciSearch_run_spec (S (length arr)) arr v Hsmall)
    as (k & r & _ & _ & _ & Hr & _ & Hres & _); [lia |].
  destruct Hres as [-> | [_ Hlook]]; [done |].
  exfalso. apply Hout. by apply list_elem_of_lookup_2 in Hlook.
Qed.

Lemma fibonacciSearch_absent_witness :
  fibonacciSearch [10; 22; 35; 40; 45; 50; 80; 82; 85; 90; 100] 99 = Ret (-1) /\
  forall w, fibonacciSearch [] w = Ret (-1).
Proof.
  apply (fibonacciSearch_absent [10; 22; 35; 40; 45; 50; 80; 82; 85; 90; 100] 99).
  - vm_compute. discriminate.
  - apply Sorted_nondecreasing. repeat constructor; lia.
  - intros H. apply list_elem_of_In in H. simpl in H. lia.
Defined.

(** C6, as stated for sequences of any size, fails at 1836311904 elements:
    on [fib_overflow_input] the search for 1 reads positions 1776683620 and
    368225351 and then uses the index -741600055. *)
Lemma fibonacciSearch_reads_fail_beyond_F46 :
  probes fib_overflow_input 1 = [1776683620; 368225351; -741600055] /\
  fibonacciSearch fib_overflow_input 1 = OutOfBounds (-741600055) /\
  ~ Forall (fun i => 0 <= i <= size fib_overflow_input - 1)
      (probes fib_overflow_input 1).
Proof.
  destruct (fib_overflow_input_search 1 ltac:(lia)) as [Hrun Hprobes].
  split_and!.
  - exact Hprobes.
  - exact Hrun.
  - rewrite Hprobes. intros Hall.
    apply Forall_cons_1 in Hall as [_ Hall].
    apply Forall_cons_1 in Hall as [_ Hall].
    apply Forall_cons_1 in Hall as [Hbad _]. lia.
Qed.

(** C6, amended.  For every vector of at most F(46) = 1836311903 integers
    (of any such size, including 0 and 1, ordered or not) and every target,
    each index that [fibonacciSearch] hands to [operator[]] -- the probes of
    the main loop and the residual read of [arr[offset + 1]] -- lies in
    [0, N - 1], so the run is never an out-of-bounds read; and when [N = 0]
    nothing is read at all. *)
Theorem fibonacciSearch_reads_in_bounds (arr : vec) (v : Z) :
  size arr <= 1836311903 ->
  Forall (fun i => 0 <= i <= size arr - 1) (probes arr v) /\
  (forall i, fibonacciSearch arr v <> OutOfBounds i) /\
  (size arr = 0 -> probes arr v = []).
Proof.
  intros Hsmall. unfold fibonacciSearch, probes.
  destruct (fibonacciSearch_run_spec (S (length arr)) arr v Hsmall)
    as (k & r & _ & _ & _ & Hr & Htr & _); [lia |].
  split_and!.
  - eapply Forall_impl; [exact Htr |]. intros i Hi. simpl in Hi. lia.
  - intros i. by rewrite Hr.
  - intros Hz. destruct Htr as [| i tr Hi _]; [done | lia].
Qed.

Lemma fibonacciSearch_reads_in_bounds_witness :
  Forall (fun i => 0 <= i <= size [4; 1; 3] - 1) (probes [4; 1; 3] 2) /\
  (forall i, fibonacciSearch [4; 1; 3] 2 <> OutOfBounds i) /\
  (size [4; 1; 3] = 0 -> probes [4; 1; 3] 2 = []).
Proof. apply (fibonacciSearch_reads_in_bounds [4; 1; 3] 2). vm_compute. discriminate. Defined.

(** C9, as stated for every input sequence, fails at 1836311904 elements:
    on [fib_overflow_input] the search for 1 returns neither -1 nor an index
    of the vector; it ends in an out-of-bounds read. *)
Lemma fibonacciSearch_result_fails_beyond_F46 :
  ~ exists r,
      fibonacciSearch fib_overflow_input 1 = Ret r /\
      (r = -1 \/ 0 <= r < size fib_overflow_input).
Proof.
  destruct (fib_overflow_input_search 1 ltac:(lia)) as [Hrun _].
  intros (r & Hret & _). rewrite Hrun in Hret. discriminate.
Qed.

(** C9, amended.  For every vector of at most F(46) = 1836311903 integers
    and every target, with no assumption on the order, [fibonacciSearch]
    returns -1 or an index in [0, |arr|); -1 is never such an index. *)
Theorem fibonacciSearch_result_range (arr : vec) (v : Z) :
  size arr <= 1836311903 ->
  exists r,
    fibonacciSearch arr v = Ret r /\
    (r = -1 \/ 0 <= r < size arr) /\
    ~ (0 <= -1 < size arr).
Proof.
  intros Hsmall. unfold fibonacciSearch.
  destruct (fibonacciSearch_run_spec (S (length arr)) arr v Hsmall)
    as (k & r & _ & _ & _ & Hr & _ & Hres & _); [lia |].
  exists r. split_and!; [done | | lia].
  destruct Hres as [-> | [? _]]; [by left | by right].
Qed.

Lemma fibonacciSearch_result_range_witness :
  exists r,
    fibonacciSearch [9; 2; 7; 2] 7 = Ret r /\
    (r = -1 \/ 0 <= r < size [9; 2; 7; 2]) /\
    ~ (0 <= -1 < size [9; 2; 7; 2]).
Proof. apply (fibonacciSearch_result_range [9; 2; 7; 2] 7). vm_compute. discriminate. Defined.

(** C7, as stated for every length, fails at N = F(46) + 1 = 1836311904:
    F(47) does not fit an [int], the sums wrap around, and the loop exits
    with [fibM = 2144908973], which lies strictly between F(46) and F(47)
    and is no Fibonacci number at all. *)
Lemma generated_fails_beyond_F46 :
  generated (S (length fib_overflow_input)) fib_overflow_input
  = Ret (Triple 1776683621 368225352 2144908973) /\
  ~ exists t lo,
      generated (S (length fib_overflow_input)) fib_overflow_input = Ret t /\
      least_fib_from lo (size fib_overflow_input) (fibM t).
Proof.
  assert (generated (S (length fib_overflow_input)) fib_overflow_input
          = Ret (Triple 1776683621 368225352 2144908973)) as Hgen.
  { unfold generated.
    apply generate_overflow;
      [apply fib_overflow_input_size | apply Nat.lt_succ_diag_r]. }
  split; [exact Hgen |].
  intros (t & lo & Ht & (k & _ & Hk) & _).
  rewrite Hgen in Ht. injection Ht as <-. cbn [fibM] in Hk.
  destruct (decide (k <= 46)%nat) as [Hle | Hgt].
  - pose proof (fib_mono k 46 Hle) as Hm. rewrite fib_46 in Hm. lia.
  - pose proof (fib_mono 47 k ltac:(lia)) as Hm.
    assert (fib 47 = 2971215073) as H47 by (vm_compute; reflexivity). lia.
Qed.

(** C7, amended.  For every vector of length [N <= F(46) = 1836311903], the
    generation loop exits with [fibM] the smallest Fibonacci number F(k)
    that is at least [N], and with [fibMMm1 = F(k-1)] and [fibMMm2 = F(k-2)]
    the two preceding ones; [k] ranges over the indices [k >= 2] for which
    F(k-2) exists.  (Below, [k] stands for [k - 2].) *)
Theorem generated_least_fib (arr : vec) :
  size arr <= 1836311903 ->
  exists k t,
    generated (S (length arr)) arr = Ret t /\
    fibMMm2 t = fib k /\ fibMMm1 t = fib (S k) /\ fibM t = fib (S (S k)) /\
    least_fib_from 2 (size arr) (fibM t).
Proof.
  intros Hsmall. unfold generated.
  assert (0 <= size arr) as Hnn by machine_lia.
  rewrite (wrap_int_small (size arr)) by machine_lia.
  rewrite init_triple_at.
  destruct (generate_spec (S (length arr)) 0 (size arr)) as (k & Hgen & Hreach & Hk);
    [done | by left | lia | machine_lia |].
  exists k, (triple_at k). split_and!; [done .. |].
  cbn [triple_at fibM]. split_and!.
  - exists (S (S k)). split; [lia | done].
  - done.
  - intros j Hj Hnj.
    destruct (decide (S (S k) <= j)%nat) as [Hle | Hgt]; [by apply fib_mono |].
    destruct Hk as [-> | Hlt]; [lia |].
    pose proof (fib_mono j (S k) ltac:(lia)). lia.
Qed.

Lemma generated_least_fib_witness :
  exists k t,
    generated (S (length [10; 22; 35; 40; 45; 50; 80; 82; 85; 90; 100]))
      [10; 22; 35; 40; 45; 50; 80; 82; 85; 90; 100] = Ret t /\
    fibMMm2 t = fib k /\ fibMMm1 t = fib (S k) /\ fibM t = fib (S (S k)) /\
    least_fib_from 2 (size [10; 22; 35; 40; 45; 50; 80; 82; 85; 90; 100]) (fibM t).
Proof.
  apply (generated_least_fib [10; 22; 35; 40; 45; 50; 80; 82; 85; 90; 100]).
  vm_compute. discriminate.
Defined.

(** C10, as stated for every input sequence, fails at 1836311904 elements:
    whatever the fuel, the run on [fib_overflow_input] does not return but
    ends in an out-of-bounds read; and in the generation loop the step taken
    from (F(44), F(45), F(46)), where the guard [fibM < N] holds, makes
    [fibM] smaller, not larger. *)
Lemma fibonacciSearch_terminates_fails_beyond_F46 :
  (forall fuel, (length fib_overflow_input < fuel)%nat ->
     snd (fibonacciSearch_run fuel fib_overflow_input 1)
     = OutOfBounds (-741600055)) /\
  ~ (exists r, forall fuel, (length fib_overflow_input < fuel)%nat ->
       snd (fibonacciSearch_run fuel fib_overflow_input 1) = Ret r) /\
  fibM (triple_at 44) < size fib_overflow_input /\
  fibM (gen_step (triple_at 44)) < fibM (triple_at 44).
Proof.
  assert (forall fuel, (length fib_overflow_input < fuel)%nat ->
            snd (fibonacciSearch_run fuel fib_overflow_input 1)
            = OutOfBounds (-741600055)) as Hrun.
  { intros fuel Hfuel.
    rewrite (fib_overflow_input_run fuel 1 ltac:(lia) Hfuel). reflexivity. }
  split_and!.
  - exact Hrun.
  - intros [r Hr].
    specialize (Hr (S (length fib_overflow_input)) (Nat.lt_succ_diag_r _)).
    rewrite (Hrun _ (Nat.lt_succ_diag_r _)) in Hr. discriminate.
  - rewrite fib_overflow_input_size. vm_compute. reflexivity.
  - vm_compute. reflexivity.
Qed.

(** C10, amended.  For every vector of at most F(46) = 1836311903 integers
    and every target, [fibonacciSearch] returns: any fuel above the length
    of the vector gives the same value and never runs out.  The generation
    loop makes progress because each iteration strictly increases [fibM]
    while [fibM < N]; the search loop because, while [fibM > 1], both the
    less-than and the greater-than branch strictly decrease [fibM]. *)
Theorem fibonacciSearch_terminates (arr : vec) (v : Z) :
  size arr <= 1836311903 ->
  (exists r, forall fuel, (length arr < fuel)%nat ->
     snd (fibonacciSearch_run fuel arr v) = Ret r) /\
  (forall k, fibM (triple_at k) < size arr ->
     fibM (triple_at k) < fibM (gen_step (triple_at k))) /\
  (forall k, fibMMm1 (triple_at k) < size arr -> 1 < fibM (triple_at k) ->
     fibM (less_step (triple_at k)) < fibM (triple_at k) /\
     fibM (greater_step (triple_at k)) < fibM (triple_at k)).
Proof.
  intros Hsmall. split_and!.
  - destruct (fibonacciSearch_run_spec (S (length arr)) arr v Hsmall)
      as (k & r & _ & _ & _ & Hr & _); [lia |].
    exists r. intros fuel Hfuel. by rewrite fibonacciSearch_run_fuel.
  - intros k Hk. cbn [triple_at fibM] in Hk.
    rewrite gen_step_at
      by (apply fib_le_46; pose proof (fib_lt_46 (S (S k)) ltac:(lia)); lia).
    cbn [triple_at fibM].
    rewrite (fib_SS (S k)). pose proof (fib_pos k). lia.
  - intros k Hk Hguard. cbn [triple_at fibM fibMMm1] in *.
    unfold less_step, greater_step. cbn [triple_at fibM fibMMm1 fibMMm2].
    rewrite (fib_SS k) in *. pose proof (fib_pos k).
    destruct k as [| k]; [rewrite fib_0, fib_1 in Hguard; lia |].
    pose proof (fib_pos k). lia.
Qed.

Lemma fibonacciSearch_terminates_witness :
  (exists r, forall fuel, (length [3; 8; 8; 21] < fuel)%nat ->
     snd (fibonacciSearch_run fuel [3; 8; 8; 21] 8) = Ret r) /\
  (forall k, fibM (triple_at k) < size [3; 8; 8; 21] ->
     fibM (triple_at k) < fibM (gen_step (triple_at k))) /\
  (forall k, fibMMm1 (triple_at k) < size [3; 8; 8; 21] -> 1 < fibM (triple_at k) ->
     fibM (less_step (triple_at k)) < fibM (triple_at k) /\
     fibM (greater_step (triple_at k)) < fibM (triple_at k)).
Proof. apply (fibonacciSearch_terminates [3; 8; 8; 21] 8). vm_compute. discriminate. Defined.

(** * Further properties of the three routines *)

(** ** Bubble sort: passes *)

(** A pass over a stretch that is already in order exchanges nothing and
    leaves [swapped] as it was. *)
Lemma inner_loop_sorted d : forall fuel (beads : vec) (i j : nat) swapped,
  size beads <= size_max ->
  (i + j + d + 1 = length beads)%nat ->
  (d < fuel)%nat ->
  (forall (k : nat) a b, (j <= k < j + d)%nat ->
     beads !! k = Some a -> beads !! S k = Some b -> a <= b) ->
  inner_loop fuel beads (Z.of_nat i) (Z.of_nat j) swapped = Ret (beads, swapped).
Proof.
  induction d as [| d IH]; intros fuel beads i j swapped Hmax Hlen Hfuel Hord;
    (destruct fuel as [| fuel]; [lia |]); simpl.
  - rewrite pass_bound by (done || lia).
    destruct (Z.ltb_spec (Z.of_nat j) (Z.of_nat (length beads - 1 - i)));
      [lia | done].
  - rewrite pass_bound by (done || lia).
    destruct (Z.ltb_spec (Z.of_nat j) (Z.of_nat (length beads - 1 - i)));
      [| lia].
    destruct (lookup_lt_is_Some_2 beads j) as [a Ha]; [lia |].
    destruct (lookup_lt_is_Some_2 beads (S j)) as [b Hb]; [lia |].
    rewrite (succ_index beads) by (done || lia).
    rewrite (at_lookup _ _ _ Ha), (at_lookup _ _ _ Hb). simpl.
    pose proof (Hord j a b ltac:(lia) Ha Hb) as Hab.
    destruct (Z.gtb_spec a b) as [Hgt | _]; [lia |].
    apply IH; [done | lia | lia |].
    intros k x y Hk. apply Hord. lia.
Qed.

(** X2.  One pass of the inner loop (pass number [i], started with
    [swapped = false]) returns without leaving the vector; it rearranges only
    the first [size - i] positions, leaves the largest value of that prefix
    in its last position, and reports [swapped = false] only if it changed
    nothing. *)
Theorem bubble_pass_places_max (beads : vec) (i : nat) :
  size beads <= size_max -> (i < length beads)%nat ->
  exists beads' swapped,
    inner_loop (S (length beads)) beads (Z.of_nat i) 0 false = Ret (beads', swapped) /\
    perm_below (length beads - i) beads beads' /\
    (forall (k : nat) a b, (k < length beads - 1 - i)%nat ->
       beads' !! k = Some a -> beads' !! (length beads - 1 - i)%nat = Some b ->
       a <= b) /\
    (swapped = false -> beads' = beads).
Proof.
  intros Hmax Hi.
  destruct (inner_loop_spec (length beads - 1 - i) (S (length beads)) beads i 0 false)
    as (beads' & sw & Hrun & HP & Hlast & Hsw); [done | lia | lia | intros; lia |].
  exists beads', sw. change (Z.of_nat 0) with 0 in Hrun.
  replace (S (0 + (length beads - 1 - i))) with (length beads - i)%nat in HP by lia.
  split_and!; [done | done | exact Hlast |].
  intros Hf. by destruct (Hsw Hf) as (_ & ? & _).
Qed.

Lemma bubble_pass_places_max_witness :
  exists beads' swapped,
    inner_loop (S (length [5; 2; 9; 1])) [5; 2; 9; 1] (Z.of_nat 0) 0 false
      = Ret (beads', swapped) /\
    perm_below (length [5; 2; 9; 1] - 0) [5; 2; 9; 1] beads' /\
    (forall (k : nat) a b, (k < length [5; 2; 9; 1] - 1 - 0)%nat ->
       beads' !! k = Some a -> beads' !! (length [5; 2; 9; 1] - 1 - 0)%nat = Some b ->
       a <= b) /\
    (swapped = false -> beads' = [5; 2; 9; 1]).
Proof.
  apply (bubble_pass_places_max [5; 2; 9; 1] 0).
  - vm_compute. discriminate.
  - simpl. lia.
Defined.

(** X3.  Early exit: on a non-empty vector that is already non-decreasing the
    outer loop needs a single round (fuel 1: the first pass exchanges nothing
    and the [break] is taken, or the loop is not entered at all), and
    [bubbleSort] returns the vector unchanged. *)
Theorem bubbleSort_sorted_one_pass (beads : vec) :
  beads <> [] -> size beads <= size_max -> nondecreasing beads ->
  outer_loop 1 beads 0 = Ret beads /\ bubbleSort beads = Ret beads.
Proof.
  intros Hne Hmax Hnd. split; [| by apply bubbleSort_sorted_fixed].
  assert (0 < length beads)%nat by (destruct beads; [done | simpl; lia]).
  cbn [outer_loop].
  destruct (0 <? wrap_size (size beads - 1)); [| done].
  pose proof (inner_loop_sorted (length beads - 1) (S (length beads)) beads 0 0 false)
    as Hpass.
  change (Z.of_nat 0) with 0 in Hpass. rewrite Hpass; [done | done | lia | lia |].
  intros k a b _. apply Hnd.
Qed.

Lemma bubbleSort_sorted_one_pass_witness :
  outer_loop 1 [1; 2; 2; 7] 0 = Ret [1; 2; 2; 7] /\
  bubbleSort [1; 2; 2; 7] = Ret [1; 2; 2; 7].
Proof.
  apply (bubbleSort_sorted_one_pass [1; 2; 2; 7]).
  - discriminate.
  - vm_compute. discriminate.
  - apply Sorted_nondecreasing. repeat constructor; lia.
Defined.

(** ** Heap sort: sift-down and heap construction *)

(** Sift-down at [i] never writes to a position before [i]. *)
Lemma heapify_frame fuel : forall (arr : vec) (n i : nat) arr',
  (n <= length arr)%nat -> Z.of_nat n < 2 ^ 30 -> (i < n)%nat ->
  heapify fuel arr (Z.of_nat n) (Z.of_nat i) = Ret arr' ->
  forall j : nat, (j < i)%nat -> arr' !! j = arr !! j.
Proof.
  induction fuel as [| fuel IH]; intros arr n i arr' Hn Hsmall Hi; [done |].
  rewrite heapify_unfold.
  rewrite !child_index by lia.
  replace (2 * Z.of_nat i + 1) with (Z.of_nat (2 * i + 1)) by lia.
  replace (2 * Z.of_nat i + 2) with (Z.of_nat (2 * i + 2)) by lia.
  destruct (pick_spec arr n (2 * i + 1) i Hn) as (l1 & -> & Hl1 & Hl1n & _);
    [lia |]. cbn [bind].
  destruct (pick_spec arr n (2 * i + 2) l1 Hn Hl1n) as (l2 & -> & Hl2 & Hl2n & _).
  cbn [bind].
  destruct (Z.eqb_spec (Z.of_nat l2) (Z.of_nat i)) as [Heq | Hneq]; cbn [negb].
  - intros [= <-] j Hj. done.
  - destruct (lookup_lt_is_Some_2 arr i) as [vi Hvi]; [lia |].
    destruct (lookup_lt_is_Some_2 arr l2) as [v2 Hv2]; [lia |].
    rewrite (swap_lookup _ _ _ _ _ Hvi Hv2). cbn [bind].
    intros Hrun j Hj.
    set (arr1 := <[l2 := vi]> (<[i := v2]> arr)) in *.
    assert (n <= length arr1)%nat as Hn1
      by (unfold arr1; by rewrite !length_insert).
    rewrite (IH arr1 n l2 arr' Hn1 Hsmall Hl2n Hrun j) by lia.
    unfold arr1. rewrite (exchange_lookup arr i l2 vi v2 j Hvi Hv2).
    destruct (decide (j = l2)) as [? | _]; [lia |].
    destruct (decide (j = i)) as [? | _]; [lia | done].
Qed.

(** X5.  [heapify(arr, n, i)], called as in [heapSort] on a node [i < n]
    whose descendants already satisfy the max-heap order, returns; afterwards
    the order holds at [i] and at every later node, the first [n] positions
    hold the same values as before, and the positions from [n] on and the
    positions before [i] are untouched. *)
Theorem heapify_restores_heap (arr : vec) (n i : nat) :
  (n <= length arr)%nat -> Z.of_nat n < 2 ^ 30 -> (i < n)%nat ->
  (forall j, (i < j)%nat -> heap_at arr n j) ->
  exists arr',
    heapify (S (length arr)) arr (Z.of_nat n) (Z.of_nat i) = Ret arr' /\
    take n arr ≡ₚ take n arr' /\ drop n arr = drop n arr' /\
    (forall j : nat, (j < i)%nat -> arr' !! j = arr !! j) /\
    (forall j, (i <= j)%nat -> heap_at arr' n j).
Proof.
  intros Hn Hsmall Hi Hsub.
  destruct (heapify_spec (S (length arr)) arr i n i) as (arr' & Hrun & [HP HD] & Hall);
    [done | done | lia | lia | |].
  { split; [intros j ? ?; apply Hsub; lia | intros; lia]. }
  exists arr'. split_and!; [done | done | done | | done].
  by apply (heapify_frame (S (length arr)) arr n i).
Qed.

Lemma heapify_restores_heap_witness :
  exists arr',
    heapify (S (length [1; 9; 8; 4; 7])) [1; 9; 8; 4; 7] (Z.of_nat 5) (Z.of_nat 0)
      = Ret arr' /\
    take 5 [1; 9; 8; 4; 7] ≡ₚ take 5 arr' /\
    drop 5 [1; 9; 8; 4; 7] = drop 5 arr' /\
    (forall j : nat, (j < 0)%nat -> arr' !! j = [1; 9; 8; 4; 7] !! j) /\
    (forall j, (0 <= j)%nat -> heap_at arr' 5 j).
Proof.
  apply (heapify_restores_heap [1; 9; 8; 4; 7] 5 0).
  - simpl. lia.
  - vm_compute. reflexivity.
  - lia.
  - intros j Hj c a b Hc Hcn Ha Hb.
    destruct j as [| [| [| [| [| j]]]]]; [lia | | | | |];
      try (simpl in Ha; discriminate); try lia.
    assert (c = 3 \/ c = 4)%nat as [-> | ->] by lia;
      simpl in Ha, Hb; simplify_eq; lia.
Defined.

(** X6.  For [i < n <= arr.size()] and [n < 2^30]: when node [i] already
    holds a value at least as large as its children inside the bound [n],
    [heapify(arr, n, i)] exchanges nothing and returns the vector as it
    is. *)
Theorem heapify_heap_unchanged (fuel : nat) (arr : vec) (n i : nat) :
  (n <= length arr)%nat -> Z.of_nat n < 2 ^ 30 -> (i < n)%nat ->
  heap_at arr n i ->
  heapify (S fuel) arr (Z.of_nat n) (Z.of_nat i) = Ret arr.
Proof.
  intros Hn Hsmall Hi Hheap.
  rewrite heapify_unfold.
  rewrite !child_index by lia.
  replace (2 * Z.of_nat i + 1) with (Z.of_nat (2 * i + 1)) by lia.
  replace (2 * Z.of_nat i + 2) with (Z.of_nat (2 * i + 2)) by lia.
  destruct (lookup_lt_is_Some_2 arr i) as [vi Hvi]; [lia |].
  destruct (pick_spec arr n (2 * i + 1) i Hn) as (l1 & -> & Hl1 & Hl1n & _ & _ & Hgt1);
    [lia |]. cbn [bind].
  assert (l1 = i) as ->.
  { destruct Hl1 as [-> | ->]; [done |]. exfalso.
    destruct (lookup_lt_is_Some_2 arr (2 * i + 1)) as [x Hx]; [lia |].
    pose proof (Hgt1 ltac:(lia) x vi Hx Hvi).
    pose proof (Hheap (2 * i + 1)%nat vi x ltac:(lia) Hl1n Hvi Hx). lia. }
  destruct (pick_spec arr n (2 * i + 2) i Hn Hi) as (l2 & -> & Hl2 & Hl2n & _ & _ & Hgt2).
  cbn [bind].
  assert (l2 = i) as ->.
  { destruct Hl2 as [-> | ->]; [done |]. exfalso.
    destruct (lookup_lt_is_Some_2 arr (2 * i + 2)) as [x Hx]; [lia |].
    pose proof (Hgt2 ltac:(lia) x vi Hx Hvi).
    pose proof (Hheap (2 * i + 2)%nat vi x ltac:(lia) Hl2n Hvi Hx). lia. }
  by rewrite Z.eqb_refl.
Qed.

Lemma heapify_heap_unchanged_witness :
  heapify (S 0) [9; 4; 7; 1] (Z.of_nat 4) (Z.of_nat 0) = Ret [9; 4; 7; 1].
Proof.
  apply (heapify_heap_unchanged 0 [9; 4; 7; 1] 4 0).
  - simpl. lia.
  - vm_compute. reflexivity.
  - lia.
  - intros c a b Hc Hcn Ha Hb.
    assert (c = 1 \/ c = 2)%nat as [-> | ->] by lia;
      simpl in Ha, Hb; simplify_eq; lia.
Defined.

(** X7.  The first loop of [heapSort] (heap construction, from
    [i = n / 2 - 1] down to 0) returns on every vector of fewer than 2^30
    elements with a rearrangement of the input in which every node is at
    least as large as its children and the first element is a maximum of the
    vector. *)
Theorem build_loop_makes_heap (arr : vec) :
  size arr < 2 ^ 30 ->
  exists arr',
    build_loop (S (length arr)) arr (wrap_int (size arr))
      (wrap_int (Z.quot (wrap_int (size arr)) 2 - 1)) = Ret arr' /\
    arr ≡ₚ arr' /\
    (forall j, heap_at arr' (length arr') j) /\
    (forall (k : nat) a b, arr' !! 0%nat = Some a -> arr' !! k = Some b -> b <= a).
Proof.
  intros Hsmall. unfold size in Hsmall.
  rewrite (wrap_int_small (size arr)) by machine_lia. unfold size.
  replace (wrap_int (Z.of_nat (length arr) `quot` 2 - 1))
    with (Z.of_nat (length arr / 2) - 1).
  2:{ rewrite Z.quot_div_nonneg by lia.
      rewrite Nat2Z.inj_div.
      pose proof (Z.div_pos (Z.of_nat (length arr)) 2).
      pose proof (Z.div_le_upper_bound (Z.of_nat (length arr)) 2 (Z.of_nat (length arr))).
      rewrite wrap_int_small; machine_lia. }
  pose proof (Nat.div_mod_eq (length arr) 2) as Hdiv.
  pose proof (Nat.mod_upper_bound (length arr) 2) as Hmod.
  destruct (build_loop_spec (length arr / 2) (S (length arr)) arr)
    as (arr' & Hrun & HP & Hheap); [done | lia | lia | |].
  { intros j Hj c a b Hc Hcn. lia. }
  exists arr'. split_and!; [done | done | done |].
  intros k a b Ha Hb. apply (heap_root_max arr' (length arr') Hheap k); [| done | done].
  by apply lookup_lt_Some in Hb.
Qed.

Lemma build_loop_makes_heap_witness :
  exists arr',
    build_loop (S (length [12; 3; 5; 7; 19; 1])) [12; 3; 5; 7; 19; 1]
      (wrap_int (size [12; 3; 5; 7; 19; 1]))
      (wrap_int (Z.quot (wrap_int (size [12; 3; 5; 7; 19; 1])) 2 - 1)) = Ret arr' /\
    [12; 3; 5; 7; 19; 1] ≡ₚ arr' /\
    (forall j, heap_at arr' (length arr') j) /\
    (forall (k : nat) a b, arr' !! 0%nat = Some a -> arr' !! k = Some b -> b <= a).
Proof. apply (build_loop_makes_heap [12; 3; 5; 7; 19; 1]). vm_compute. reflexivity. Defined.

(** ** Fibonacci search: soundness without order, number of reads *)

(** From the state with index [k] the search loop reads at most [2 * k + 1]
    times: two evaluations of [arr[i]] per round, one in the residual check. *)
Lemma search_loop_reads fuel : forall (arr : vec) (target : Z) (k : nat) t (offset : Z),
  size arr <= int_max ->
  fib_state k t -> offset + fib (S (S k)) <= int_max -> (k < fuel)%nat ->
  (k = 0%nat \/ 0 < size arr) ->
  -1 <= offset < size arr ->
  (length (fst (search_loop fuel arr (size arr) target t offset)) <= 2 * k + 1)%nat.
Proof.
  induction fuel as [| fuel IH];
    intros arr target k t offset Hsmall Hst Hfib Hfuel Hn Hoff; [lia |].
  cbn [search_loop].
  destruct Hst as [-> | [-> ->]].
  2:{ cbn. lia. }
  destruct k as [| k].
  - change (triple_at 0) with (Triple 0 1 1). cbn [fibM fibMMm1].
    change (1 >? 1) with false. change (negb (1 =? 0)) with true.
    change (fib 2) with 1 in Hfib.
    cbn [andb]. rewrite wrap_int_small by machine_lia.
    destruct (Z.ltb_spec (offset + 1) (size arr)) as [Hin | Hout]; [| cbn; lia].
    destruct (at_in_bounds arr (offset + 1)) as (x & Hx & _); [lia |].
    rewrite (tread_bind _ _ _ _ Hx).
    destruct (x =? target); cbn; lia.
  - assert (0 < size arr) as Hpos by (destruct Hn; [done | lia]).
    pose proof (fib_pos k) as Hk1. pose proof (fib_pos (S k)) as Hk2.
    pose proof (fib_le_S (S k)) as Hmono.
    cbn [triple_at fibM fibMMm2].
    rewrite (fib_SS (S k)) in *.
    destruct (Z.gtb_spec (fib (S k) + fib (S (S k))) 1) as [_ | ?]; [| lia].
    rewrite (wrap_int_small (offset + _)) by machine_lia.
    rewrite (wrap_int_small (size arr - 1)) by machine_lia.
    set (i := Z.min (offset + fib (S k)) (size arr - 1)).
    assert (0 <= i < size arr) as Hi by lia.
    assert (i <= offset + fib (S k)) as Hile by lia.
    destruct (at_in_bounds arr i Hi) as (x & Hx & _).
    rewrite (tread_bind _ _ _ _ Hx).
    fold (triple_at (S k)).
    destruct (x <? target).
    + rewrite less_step_at by machine_lia. cbn [fst length].
      pose proof (IH arr target k (triple_at k) i Hsmall ltac:(by left)
                    ltac:(machine_lia) ltac:(lia) ltac:(by right) ltac:(lia)).
      lia.
    + rewrite (tread_bind _ _ _ _ Hx).
      destruct (x >? target); [| cbn; lia].
      destruct k as [| k].
      * rewrite greater_step_1. cbn [fst length].
        pose proof (IH arr target 0%nat triple_low offset Hsmall ltac:(by right)
                      ltac:(machine_lia) ltac:(lia) ltac:(by left) Hoff).
        lia.
      * rewrite greater_step_at by machine_lia. cbn [fst length].
        pose proof (IH arr target k (triple_at k) offset Hsmall ltac:(by left)
                      ltac:(machine_lia) ltac:(lia) ltac:(by right) Hoff).
        lia.
Qed.

(** X10.  The number of reads is logarithmic in the size: [fibonacciSearch]
    reads the vector at most [2 * k + 1] times, where [k] is 0 or an index
    with F(k+1) < N; for the vectors of fewer than 2^30 elements that is at
    most 87 reads. *)
Theorem fibonacciSearch_reads_bound (arr : vec) (v : Z) :
  size arr < 2 ^ 30 ->
  exists k : nat,
    (k = 0%nat \/ fib (S k) < size arr) /\
    Z.of_nat (length (probes arr v)) <= 2 * Z.of_nat k + 1 /\
    Z.of_nat (length (probes arr v)) <= 87.
Proof.
  intros Hsmall. unfold probes, fibonacciSearch_run.
  assert (0 <= size arr) as Hnn by machine_lia.
  rewrite (wrap_int_small (size arr)) by machine_lia.
  rewrite init_triple_at.
  destruct (generate_spec (S (length arr)) 0 (size arr)) as (k & Hgen & Hreach & Hk);
    [lia | by left | lia | machine_lia |].
  rewrite Hgen, tlift_bind.
  pose proof (fib_pos k) as Hpos. pose proof (fib_S_ge k) as Hge.
  exists k. split; [done |].
  assert (k <= 43)%nat as Hk43.
  { destruct Hk as [-> | Hlt]; [lia |].
    destruct (decide (k <= 43)%nat) as [? | Hbig]; [done |].
    pose proof (fib_mono 45 (S k) ltac:(lia)) as Hm.
    assert (2 ^ 30 <= fib 45) by (vm_compute; discriminate). lia. }
  enough (length (fst (search_loop (S (length arr)) arr (size arr) v (triple_at k) (-1)))
          <= 2 * k + 1)%nat by lia.
  apply search_loop_reads.
  - machine_lia.
  - by left.
  - apply (generated_in_range k (size arr)); [lia | done].
  - destruct Hk as [-> | ?]; [lia | machine_lia].
  - destruct Hk as [-> | ?]; [by left | right; lia].
  - lia.
Qed.

Lemma fibonacciSearch_reads_bound_witness :
  exists k : nat,
    (k = 0%nat \/ fib (S k) < size [10; 22; 35; 40; 45; 50; 80; 82; 85; 90; 100]) /\
    Z.of_nat (length (probes [10; 22; 35; 40; 45; 50; 80; 82; 85; 90; 100] 85))
    <= 2 * Z.of_nat k + 1 /\
    Z.of_nat (length (probes [10; 22; 35; 40; 45; 50; 80; 82; 85; 90; 100] 85)) <= 87.
Proof.
  apply (fibonacciSearch_reads_bound [10; 22; 35; 40; 45; 50; 80; 82; 85; 90; 100] 85).
  vm_compute. reflexivity.
Defined.

(** X9.  Also on a vector that is not in order, [fibonacciSearch] never
    reports a wrong position: it returns -1 or an index whose element equals
    the target, and therefore -1 whenever the target does not occur. *)
Theorem fibonacciSearch_sound (arr : vec) (v : Z) :
  size arr < 2 ^ 30 ->
  exists r,
    fibonacciSearch arr v = Ret r /\
    (r = -1 \/ (0 <= r < size arr /\ arr !! Z.to_nat r = Some v)) /\
    (v ∉ arr -> r = -1).
Proof.
  intros Hsmall. unfold fibonacciSearch.
  destruct (fibonacciSearch_run_spec (S (length arr)) arr v ltac:(lia))
    as (k & r & _ & _ & _ & Hr & _ & Hres & _); [lia |].
  exists r. split_and!; [done | done |].
  intros Hout. destruct Hres as [-> | [_ Hlook]]; [done |].
  exfalso. apply Hout. by apply list_elem_of_lookup_2 in Hlook.
Qed.

Lemma fibonacciSearch_sound_witness :
  exists r,
    fibonacciSearch [9; 2; 7; 2] 2 = Ret r /\
    (r = -1 \/ (0 <= r < size [9; 2; 7; 2] /\ [9; 2; 7; 2] !! Z.to_nat r = Some 2)) /\
    (2 ∉ [9; 2; 7; 2] -> r = -1).
Proof. apply (fibonacciSearch_sound [9; 2; 7; 2] 2). vm_compute. reflexivity. Defined.

(** X11.  On a single-element vector the main loop is not entered ([fibM] is
    1): exactly one read, of index 0 in the residual check, decides between
    0 and -1. *)
Theorem fibonacciSearch_singleton (x v : Z) :
  fibonacciSearch [x] v = Ret (if x =? v then 0 else -1) /\
  probes [x] v = [0].
Proof.
  unfold fibonacciSearch, probes, fibonacciSearch_run.
  change (generate (S (length [x])) (wrap_int (size [x])) init_triple)
    with (Ret (A := triple) (Triple 0 1 1)).
  rewrite tlift_bind. cbn [search_loop fibM fibMMm1 length].
  change (1 >? 1) with false. change (negb (1 =? 0)) with true.
  change (wrap_int (-1 + 1) <? wrap_int (size [x])) with true. cbn [andb].
  change (wrap_int (-1 + 1)) with 0.
  rewrite (tread_bind [x] 0 x) by reflexivity.
  destruct (x =? v); done.
Qed.

(** ** The routines together *)

(** X12.  On every non-empty vector of fewer than 2^30 elements [bubbleSort]
    and [heapSort] return the same vector. *)
Theorem bubbleSort_heapSort_agree (arr : vec) :
  arr <> [] -> size arr < 2 ^ 30 ->
  exists arr', bubbleSort arr = Ret arr' /\ heapSort arr = Ret arr'.
Proof.
  intros Hne Hsmall.
  destruct (bubbleSort_spec arr Hne ltac:(machine_lia)) as (b & Hb & HPb & HOb).
  destruct (heapSort_spec arr Hsmall) as (h & Hh & HPh & HOh).
  exists b. split; [done |]. rewrite Hh. f_equal.
  apply nondecreasing_unique; [by apply ordered_above_nondecreasing .. |].
  by rewrite <- HPh, <- HPb.
Qed.

Lemma bubbleSort_heapSort_agree_witness :
  exists arr', bubbleSort [5; 2; 9; 1; 5; 6] = Ret arr' /\
               heapSort [5; 2; 9; 1; 5; 6] = Ret arr'.
Proof.
  apply (bubbleSort_heapSort_agree [5; 2; 9; 1; 5; 6]).
  - discriminate.
  - vm_compute. reflexivity.
Defined.



Lemma bubbleSort_idempotent_nonempty_witness :
  exists arr', bubbleSort [3; 1; 2] = Ret arr' /\ bubbleSort arr' = Ret arr'.
Proof.
  apply (bubbleSort_idempotent_nonempty [3; 1; 2]).
  - discriminate.
  - vm_compute. discriminate.
Defined.

Lemma heapSort_idempotent_witness :
  exists arr', heapSort [3; 1; 2] = Ret arr' /\ heapSort arr' = Ret arr'.
Proof. apply (heapSort_idempotent [3; 1; 2]). vm_compute. reflexivity. Defined.
